(** * GRPO on CartPole: a shallow embedding of [grpo_train_cartpole.py]

    The program rolls out a batch of episodes in a vectorized environment,
    turns the per-episode rewards into group-relative advantages, performs
    clipped policy-gradient updates and repeats.  The tensor runtime, the
    environment, the sampler and the optimizer are collaborators of the
    program: they appear here as parameters of the sections, and the code of
    the program itself is written over them, statement by statement. *)

From Stdlib Require Import List Bool Arith ZArith QArith Qabs Lia Lqa Floats.
Import ListNotations.
Close Scope Q_scope.

Set Implicit Arguments.

(** ** Scalars

    The element type of the tensors.  The program runs on IEEE-754 binary
    floating point; the operations are gathered in an interface so that the
    same definitions can also be read in exact rational arithmetic.  The
    floating-point instance is the kernel's binary64 format, whose
    operations evaluate; torch keeps these tensors in binary32, which has
    the same special values and the same rules for them, and nothing proved
    below depends on the precision. *)

Class Scalar (A : Type) : Type := {
  zero : A;
  one : A;
  add : A -> A -> A;
  sub : A -> A -> A;
  mul : A -> A -> A;
  div : A -> A -> A;
  neg : A -> A;
  absv : A -> A;                (* abs(x) *)
  of_Z : Z -> A;                (* a Python int promoted to a scalar *)
  ltb : A -> A -> bool;         (* x < y *)
  isnan : A -> bool
}.

Class Sqrt (A : Type) : Type := { sqrt : A -> A }.

(** IEEE-754 floating point (the kernel's binary64 numbers). *)
#[global] Instance float_scalar : Scalar float := {
  zero := 0%float;
  one := 1%float;
  add := PrimFloat.add;
  sub := PrimFloat.sub;
  mul := PrimFloat.mul;
  div := PrimFloat.div;
  neg := PrimFloat.opp;
  absv := PrimFloat.abs;
  of_Z := fun z => SF2Prim (binary_normalize prec emax z 0 false);
  ltb := PrimFloat.ltb;
  isnan := PrimFloat.is_nan
}.

#[global] Instance float_sqrt : Sqrt float := { sqrt := PrimFloat.sqrt }.

(** Exact rational arithmetic: no rounding, no NaN. *)
#[global] Instance Q_scalar : Scalar Q := {
  zero := 0%Q;
  one := 1%Q;
  add := Qplus;
  sub := Qminus;
  mul := Qmult;
  div := Qdiv;
  neg := Qopp;
  absv := Qabs;
  of_Z := inject_Z;
  ltb := fun x y => negb (Qle_bool y x);
  isnan := fun _ => false
}.

Section Elementwise.
Context {A : Type} {SA : Scalar A}.

Definition gtb (x y : A) : bool := ltb y x.

(** A decimal literal [m / 10^k] of the program text.  Both [m] and [10^k]
    are small integers, so on floating point the single division rounds
    the exact quotient once, as reading the literal does. *)
Definition decimal (m : Z) (k : nat) : A :=
  div (of_Z m) (of_Z (10 ^ Z.of_nat k)).

Definition lit_1e_8 : A := decimal 1 8.

(** [torch.min(a, b)] on two tensors is the elementwise minimum; a NaN on
    either side is propagated. *)
Definition minimum (a b : A) : A :=
  if isnan a then a else if isnan b then b else if ltb b a then b else a.

Definition maximum (a b : A) : A :=
  if isnan a then a else if isnan b then b else if ltb a b then b else a.

(** [torch.clamp(x, lo, hi)] is [min(max(x, lo), hi)]. *)
Definition clamp (x lo hi : A) : A := minimum (maximum x lo) hi.

(** Reduction of a one-dimensional tensor by addition. *)
Definition tsum (xs : list A) : A := fold_left add xs zero.

(** [torch.mean]. *)
Definition mean (xs : list A) : A :=
  div (tsum xs) (of_Z (Z.of_nat (length xs))).

(** [torch.std] with its default correction of one degree of freedom:
    sqrt (sum (x - mean)^2 / max (0, N - 1)). *)
Definition std {SQ : Sqrt A} (xs : list A) : A :=
  let m := mean xs in
  let squares := map (fun x => mul (sub x m) (sub x m)) xs in
  sqrt (div (tsum squares) (of_Z (Z.max 0 (Z.of_nat (length xs) - 1)))).
End Elementwise.

(** ** Exceptions and tensors of rank two *)

(** The exceptions the tensor operations of the program can raise. *)
Inductive Exn : Type :=
| StackEmpty        (* stacking, or permuting the tensor of, an empty list *)
| StackRagged       (* stacking rows of different lengths *)
| IndexMismatch     (* a boolean index whose shape is not the target's *)
| BroadcastError    (* an operand that cannot be broadcast in place *)
| ZeroDivision      (* int / int with a zero divisor *)
| Unbound.          (* a local variable read before it is assigned *)

(** A tensor of shape [dim0 x dim1]: [dim0] rows of [dim1] entries.  The
    shape is kept beside the rows since a tensor with no row still has a
    second dimension. *)
Record Tensor2 (X : Type) : Type := mkTensor2 {
  dim0 : nat;
  dim1 : nat;
  data : list (list X)
}.

Section Tensors.
Variables X Y Z : Type.

Fixpoint map2 (f : X -> Y -> Z) (xs : list X) (ys : list Y) : list Z :=
  match xs, ys with
  | x :: xs', y :: ys' => f x y :: map2 f xs' ys'
  | _, _ => []
  end.

Definition same_length (n : nat) (rows : list (list X)) : bool :=
  forallb (fun r => length r =? n) rows.

(** [torch.stack] of a list of one-dimensional tensors, and
    [torch.tensor] of a list of arrays: the rows become the first
    dimension; an empty list has no second dimension to offer. *)
Definition stack (rows : list (list X)) : Exn + Tensor2 X :=
  match rows with
  | [] => inl StackEmpty
  | r :: rs =>
      if same_length (length r) rs
      then inr (mkTensor2 (length rows) (length r) rows)
      else inl StackRagged
  end.
End Tensors.

Section Permute.
Variable X : Type.

Definition zip_cons (row : list X) (cols : list (list X)) : list (list X) :=
  map2 (@cons X) row cols.

(** The columns of [rows], each of which has [n] entries. *)
Definition transpose (n : nat) (rows : list (list X)) : list (list X) :=
  fold_right zip_cons (repeat [] n) rows.

(** [t.permute(1, 0)] (and [permute(1, 0, 2)] when the entries are
    themselves vectors). *)
Definition permute_1_0 (t : Tensor2 X) : Tensor2 X :=
  mkTensor2 (dim1 t) (dim0 t) (transpose (dim1 t) (data t)).
End Permute.

Section InPlace.
Context {A : Type} {SA : Scalar A}.

(** [target[mask] = True] *)
Definition mask_set_true (target mask : list bool) : Exn + list bool :=
  if length mask =? length target
  then inr (map2 orb target mask)
  else inl IndexMismatch.

(** [target[mask] = v] *)
Definition mask_fill (target : list A) (mask : list bool) (v : A)
  : Exn + list A :=
  if length mask =? length target
  then inr (map2 (fun x (m : bool) => if m then v else x) target mask)
  else inl IndexMismatch.

(** Broadcasting of a one-dimensional operand to a fixed length [n]. *)
Definition broadcast_to (n : nat) (xs : list A) : Exn + list A :=
  if length xs =? n then inr xs
  else match xs with
       | [x] => inr (repeat x n)
       | _ => inl BroadcastError
       end.

(** [target += other], in place: the result has the shape of [target]. *)
Definition iadd (target other : list A) : Exn + list A :=
  match broadcast_to (length target) other with
  | inr o => inr (map2 add target o)
  | inl e => inl e
  end.
End InPlace.

(** ** Advantage estimator *)

Section Advantage.
Context {A : Type} {SA : Scalar A} {SQ : Sqrt A}.

(** [calc_advantages_with_grpo], on the tensor stored under the key
    ["normalized_rewards"]. *)
Definition calc_advantages_with_grpo (rewards : list A) : list A :=
  let mean_reward := mean rewards in
  let std_reward := add (std rewards) lit_1e_8 in
  map (fun r => div (sub r mean_reward) std_reward) rewards.
End Advantage.

(** ** The program state and its monad *)

Inductive Device : Type := Cpu | Cuda.

Section Program.
Context {A : Type} {SA : Scalar A} {SQ : Sqrt A}.

(** *** Collaborators *)

Variables Obs Action : Type.              (* one observation, one action *)
Variables EnvState Rng Params OptState Grad : Type.

(** [next_states[:, 0]] of one row: the cart position. *)
Variable cart_position : Obs -> A.

(** What [envs.step] returns (the infos are never read). *)
Record StepResult : Type := mkStep {
  next_states : list Obs;
  rewards : list A;
  dones : list bool
}.

Variable env_num : EnvState -> nat.                       (* envs.num_envs *)
Variable env_reset : EnvState -> list Obs * EnvState.     (* envs.reset() *)
Variable env_step : list Action -> EnvState -> StepResult * EnvState.

(** One row of [PolicyNet.forward]: the action probabilities. *)
Variable forward : Params -> Obs -> list A.
(** [Categorical(probs).sample()] and [.log_prob(action)], for one row. *)
Variable sample : list A -> Rng -> Action * Rng.
Variable log_prob : list A -> Action -> A.
(** [probs.gather(1, action)], for one row. *)
Variable gather : list A -> Action -> A.
Variables exp log : A -> A.                          (* torch.exp, torch.log *)
(** [loss.backward()]: the gradient of a loss at the current parameters. *)
Variable backward : (Params -> A) -> Params -> Grad.
(** [optimizer.step()] on freshly computed gradients. *)
Variable optim_step : OptState -> Params -> Grad -> OptState * Params.

(** *** State *)

Record World : Type := mkWorld {
  w_env : EnvState;          (* envs *)
  w_rng : Rng;               (* the global random generator *)
  w_policy : Params;         (* the parameters of the policy network *)
  w_optim : OptState         (* the optimizer's moments *)
}.

Definition Prog (X : Type) : Type := World -> (Exn + X) * World.

Definition ret {X} (x : X) : Prog X := fun w => (inr x, w).

Definition bind {X Y} (m : Prog X) (k : X -> Prog Y) : Prog Y :=
  fun w =>
    match m w with
    | (inr x, w') => k x w'
    | (inl e, w') => (inl e, w')
    end.

Definition lift {X} (r : Exn + X) : Prog X := fun w => (r, w).

Definition raise {X} (e : Exn) : Prog X := fun w => (inl e, w).

Notation "x <- m ;; k" := (bind m (fun x => k))
  (at level 61, m at next level, right associativity).
Notation "m ;;; k" := (bind m (fun _ => k))
  (at level 61, right associativity).

Definition envs_num_envs : Prog nat :=
  fun w => (inr (env_num (w_env w)), w).

Definition envs_reset : Prog (list Obs) :=
  fun w =>
    let (o, e) := env_reset (w_env w) in
    (inr o, mkWorld e (w_rng w) (w_policy w) (w_optim w)).

Definition envs_step (actions : list Action) : Prog StepResult :=
  fun w =>
    let (r, e) := env_step actions (w_env w) in
    (inr r, mkWorld e (w_rng w) (w_policy w) (w_optim w)).

(** [policy_net(states_tensor)]: the forward pass reads the parameters. *)
Definition policy_net (states : list Obs) : Prog (list (list A)) :=
  fun w => (inr (map (forward (w_policy w)) states), w).

Fixpoint sample_rows (probs : list (list A)) (g : Rng) : list Action * Rng :=
  match probs with
  | [] => ([], g)
  | p :: ps =>
      let (a, g1) := sample p g in
      let (rest, g2) := sample_rows ps g1 in
      (a :: rest, g2)
  end.

(** [dist.sample()]: one action per row, drawn from the generator. *)
Definition dist_sample (probs : list (list A)) : Prog (list Action) :=
  fun w =>
    let (acts, g) := sample_rows probs (w_rng w) in
    (inr acts, mkWorld (w_env w) g (w_policy w) (w_optim w)).

(** [optimizer.zero_grad(); loss.backward(); optimizer.step()] *)
Definition optimizer_step (loss : Params -> A) : Prog unit :=
  fun w =>
    let g := backward loss (w_policy w) in
    let (o, p) := optim_step (w_optim w) (w_policy w) g in
    (inr tt, mkWorld (w_env w) (w_rng w) p o).

(** A program that leaves the parameters and the optimizer alone. *)
Definition keeps_policy {X} (m : Prog X) : Prop :=
  forall w, w_policy (snd (m w)) = w_policy w /\
            w_optim (snd (m w)) = w_optim w.

(** [n] optimizer steps in a row on the loss [loss]: the gradient is taken
    at the current parameters each time. *)
Definition optimizer_steps (loss : Params -> A) (n : nat)
    (op : OptState * Params) : OptState * Params :=
  Nat.iter n
    (fun op => optim_step (fst op) (snd op) (backward loss (snd op))) op.

(** *** Trajectory collector *)

(** The local variables of [collect_trajectory_vectorized] that the loop
    updates. *)
Record Rollout : Type := mkRollout {
  all_states : list (list Obs);
  all_actions : list (list Action);
  all_log_probs : list (list A);
  all_rewards : list A;
  all_dones : list bool;
  states : list Obs
}.

(** The dictionary [trajectories]. *)
Record Trajectories : Type := mkTrajectories {
  t_all_states : Tensor2 Obs;
  t_all_log_probs : Tensor2 A;
  t_all_actions : Tensor2 Action;
  t_normalized_rewards : list A
}.

(** The shaping penalty [-abs(next_states[:, 0])]. *)
Definition penalty (next : list Obs) : list A :=
  map (fun o => neg (absv (cart_position o))) next.

(** The body of the [for t in range(num_steps)] loop, up to the test of
    the early exit. *)
Definition collect_step (c : Rollout) : Prog Rollout :=
  probs <- policy_net (states c) ;;
  actions <- dist_sample probs ;;
  let log_probs := map2 log_prob probs actions in
  r <- envs_step actions ;;
  dones' <- lift (mask_set_true (all_dones c) (dones r)) ;;
  rewards0 <- lift (mask_fill (rewards r) dones' zero) ;;
  rewards1 <- lift (iadd rewards0 (penalty (next_states r))) ;;
  total <- lift (iadd (all_rewards c) rewards1) ;;
  ret (mkRollout (all_states c ++ [states c])
                 (all_actions c ++ [actions])
                 (all_log_probs c ++ [log_probs])
                 total dones' (next_states r)).

(** [torch.all] *)
Definition all_true (bs : list bool) : bool := forallb (fun b => b) bs.

Fixpoint collect_loop (fuel : nat) (c : Rollout) : Prog Rollout :=
  match fuel with
  | O => ret c
  | S fuel' =>
      c' <- collect_step c ;;
      if all_true (all_dones c') then ret c' else collect_loop fuel' c'
  end.

Definition initial_rollout (num_envs : nat) (states0 : list Obs) : Rollout :=
  mkRollout [] [] [] (repeat zero num_envs) (repeat false num_envs) states0.

(** The loop variables and the world when the loop is entered. *)
Definition collector_start (w : World) : Rollout * World :=
  let (o, e) := env_reset (w_env w) in
  (initial_rollout (env_num (w_env w)) o,
   mkWorld e (w_rng w) (w_policy w) (w_optim w)).

Definition collect_trajectory_vectorized
    (num_steps : Z) (gamma : A) (device : Device)
  : Prog (Trajectories * list A) :=
  num_envs <- envs_num_envs ;;
  states0 <- envs_reset ;;
  c <- collect_loop (Z.to_nat num_steps) (initial_rollout num_envs states0) ;;
  let normalized_rewards :=
    map (fun x => div x (of_Z num_steps)) (all_rewards c) in
  ts <- lift (stack (all_states c)) ;;
  tl <- lift (stack (all_log_probs c)) ;;
  ta <- lift (stack (all_actions c)) ;;
  let trajectories :=
    mkTrajectories (permute_1_0 ts) (permute_1_0 tl) (permute_1_0 ta)
                   normalized_rewards in
  let episode_rewards :=
    map (fun x => mul x (of_Z num_steps)) normalized_rewards in
  ret (trajectories, episode_rewards).

(** *** The trace of the environment

    [run_steps n] is the loop body repeated [n] times with no early exit;
    it describes what the environment and the sampler do, step after
    step, under the current policy.  [all_done_after c w t] tells whether
    every environment is flagged done once step [t] (counted from 0) has
    run, and [find_first p n] is the least index below [n] at which [p]
    holds. *)

Fixpoint run_steps (n : nat) (c : Rollout) : Prog Rollout :=
  match n with
  | O => ret c
  | S n' => c' <- collect_step c ;; run_steps n' c'
  end.

Definition all_done_after (c : Rollout) (w : World) (t : nat) : bool :=
  match fst (run_steps (S t) c w) with
  | inr c' => all_true (all_dones c')
  | inl _ => false
  end.

Fixpoint find_first (p : nat -> bool) (n : nat) : option nat :=
  match n with
  | O => None
  | S n' =>
      if p 0 then Some 0
      else option_map S (find_first (fun t => p (S t)) n')
  end.

(** The number of loop bodies that run when at most [n] may. *)
Definition steps_taken (c : Rollout) (w : World) (n : nat) : nat :=
  match find_first (all_done_after c w) n with
  | Some k => Nat.min n (1 + k)
  | None => n
  end.

(** *** Clipped policy update *)

(** [-torch.min(surr1, surr2)] for one timestep. *)
Definition timestep_loss (eps ratio advantage : A) : A :=
  let surr1 := mul ratio advantage in
  let surr2 := mul (clamp ratio (sub one eps) (add one eps)) advantage in
  neg (minimum surr1 surr2).

(** The loss of one episode under the parameters [net]. *)
Definition trajectory_loss (net : Params) (eps : A)
    (ep_states : list Obs) (log_probs : list A)
    (chosen_actions : list Action) (advantage : A) : A :=
  let new_log_probs :=
    map2 (fun s a => log (gather (forward net s) a)) ep_states chosen_actions in
  let ratio := map2 (fun n o => exp (sub n o)) new_log_probs log_probs in
  mean (map (fun r => timestep_loss eps r advantage) ratio).

(** The sum over the episodes, divided by [batch_size]. *)
Definition batch_loss (trajectories : Trajectories) (advantages : list A)
    (eps : A) (net : Params) : A :=
  let episodes :=
    combine (combine (data (t_all_states trajectories))
                     (data (t_all_log_probs trajectories)))
            (combine (data (t_all_actions trajectories)) advantages) in
  let loss :=
    fold_left
      (fun acc '((s, l), (a, adv)) => add acc (trajectory_loss net eps s l a adv))
      episodes zero in
  div loss (of_Z (Z.of_nat (dim0 (t_all_states trajectories)))).

Fixpoint update_loop (n : nat) (trajectories : Trajectories)
    (advantages : list A) (eps : A) (last : option A) : Prog (option A) :=
  match n with
  | O => ret last
  | S n' =>
      if dim0 (t_all_states trajectories) =? 0
      then raise ZeroDivision                      (* loss /= batch_size *)
      else
        fun w =>
          let loss := batch_loss trajectories advantages eps (w_policy w) in
          (optimizer_step (batch_loss trajectories advantages eps) ;;;
           update_loop n' trajectories advantages eps (Some loss)) w
  end.

Definition grpo_update (trajectories : Trajectories)
    (n_iterations : nat) (eps : A) : Prog A :=
  let advantages :=
    calc_advantages_with_grpo (t_normalized_rewards trajectories) in
  last <- update_loop n_iterations trajectories advantages eps None ;;
  match last with
  | Some loss => ret loss                           (* loss.item() *)
  | None => raise Unbound
  end.

(** *** Outer training loop *)

Definition max_steps : Z := 500.
Definition episode_num : nat := 100.

Inductive Exit : Type :=
| Exhausted                (* the range ran out *)
| EarlyStop                (* the [break] *)
| Raised (e : Exn).

Record TrainResult : Type := mkTrainResult {
  iterations : nat;        (* loop bodies entered *)
  return_list : list A;
  exit : Exit
}.

(** One body of the [for i_episode in ...] loop: the average reward of the
    fresh batch, once the update has run. *)
Definition train_step (device : Device) : Prog A :=
  r <- collect_trajectory_vectorized max_steps (decimal 99 2) device ;;
  let '(trajectories, episode_rewards) := r in
  loss <- grpo_update trajectories 20 (decimal 2 1) ;;
  match episode_rewards with
  | [] => raise ZeroDivision          (* sum of nothing is the int 0 *)
  | _ =>
      ret (div (tsum episode_rewards)
               (of_Z (Z.of_nat (length episode_rewards))))
  end.

Fixpoint train_loop (device : Device) (fuel : nat) (entered : nat)
    (return_list : list A) (w : World) : TrainResult * World :=
  match fuel with
  | O => (mkTrainResult entered return_list Exhausted, w)
  | S fuel' =>
      match train_step device w with
      | (inl e, w') => (mkTrainResult (S entered) return_list (Raised e), w')
      | (inr avg_reward, w') =>
          let return_list' := return_list ++ [avg_reward] in
          if gtb avg_reward (of_Z (max_steps - 5))
          then (mkTrainResult (S entered) return_list' EarlyStop, w')
          else train_loop device fuel' (S entered) return_list' w'
      end
  end.

Definition train (device : Device) (w : World) : TrainResult * World :=
  train_loop device episode_num 0 [] w.

(** The abscissas of the reward curve: [list(range(len(return_list)))]. *)
Definition episodes_list (return_list : list A) : list nat :=
  seq 0 (length return_list).

End Program.

(** ** A deterministic stub environment

    Two environments observed through four-component vectors.  The first
    cart rests at position 0.25 and its episode ends at the second step; the
    second rests at the origin and its episode ends at the first step.  The
    state of the environment is the number of steps taken.  The policy is
    uniform over two actions and the sampler alternates between them. *)

Module Stub.
Definition Obs : Type := list float.
Definition cart_position (o : Obs) : float := nth 0 o 0%float.

Definition observations : list Obs :=
  [[0.25; 0; 0; 0]; [0; 0; 0; 0]]%float.

Definition env_num (_ : nat) : nat := 2.
Definition env_reset (_ : nat) : list Obs * nat := (observations, 0).
Definition env_step (_ : list bool) (t : nat)
  : StepResult (A:=float) Obs * nat :=
  (mkStep observations [1; 1]%float [2 <=? S t; 1 <=? S t], S t).

Definition forward (_ : unit) (_ : Obs) : list float := [0.5; 0.5]%float.
Definition sample (_ : list float) (g : nat) : bool * nat := (Nat.odd g, S g).
Definition log_prob (_ : list float) (_ : bool) : float := (-0.75)%float.

Definition world : World nat nat unit unit := mkWorld 0 0 tt tt.

Definition collect (num_steps : Z) (gamma : float)
  : Prog nat nat unit unit
      (Trajectories (A:=float) Obs bool * list float) :=
  collect_trajectory_vectorized cart_position env_num env_reset env_step
    forward sample log_prob num_steps gamma Cpu.

Definition step (c : Rollout (A:=float) Obs bool)
  : Prog nat nat unit unit (Rollout (A:=float) Obs bool) :=
  collect_step cart_position env_step forward sample log_prob c.

(** The loop variables and the world after the first loop body: the
    second environment is flagged done. *)
Definition after_first : Rollout (A:=float) Obs bool :=
  mkRollout [observations] [[false; true]] [[-0.75; -0.75]]%float
            [0.75; 0]%float [false; true] observations.
Definition world_first : World nat nat unit unit := mkWorld 1 2 tt tt.

(** And after the second, when both are. *)
Definition after_second : Rollout (A:=float) Obs bool :=
  mkRollout [observations; observations] [[false; true]; [false; true]]
            [[-0.75; -0.75]; [-0.75; -0.75]]%float
            [0.5; 0]%float [true; true] observations.
Definition world_second : World nat nat unit unit := mkWorld 2 4 tt tt.

(** A third body would find both environments done already. *)
Definition after_third : Rollout (A:=float) Obs bool :=
  mkRollout [observations; observations; observations]
            [[false; true]; [false; true]; [false; true]]
            [[-0.75; -0.75]; [-0.75; -0.75]; [-0.75; -0.75]]%float
            [0.25; 0]%float [true; true] observations.
Definition world_third : World nat nat unit unit := mkWorld 3 6 tt tt.

(** The batch the collector returns when it may run four steps. *)
Definition batch : Trajectories (A:=float) Obs bool :=
  mkTrajectories
    (mkTensor2 2 2 [[[0.25; 0; 0; 0]; [0.25; 0; 0; 0]];
                    [[0; 0; 0; 0]; [0; 0; 0; 0]]]%float)
    (mkTensor2 2 2 [[-0.75; -0.75]; [-0.75; -0.75]]%float)
    (mkTensor2 2 2 [[false; false]; [true; true]])
    [0.125; 0]%float.
End Stub.

(** ** The policy network

    [PolicyNet]: two linear layers, a rectifier between them and a softmax
    over the actions.  A linear layer keeps its weight as [out_features]
    rows of [in_features] entries and computes [x W^T + b]; the softmax of
    a row is [exp x_i / sum_j exp x_j].  The exponential is a function of
    the tensor runtime and is a parameter here. *)

Section PolicyNetwork.
Context {A : Type} {SA : Scalar A}.
Variable exp : A -> A.

Record Linear : Type := mkLinear {
  weight : list (list A);
  bias : list A
}.

Record PolicyNet : Type := mkPolicyNet {
  fc1 : Linear;
  fc2 : Linear
}.

Definition dot (u v : list A) : A := tsum (map2 mul u v).

Definition linear (l : Linear) (x : list A) : list A :=
  map2 (fun row b => add (dot row x) b) (weight l) (bias l).

(** [relu(x) = max(x, 0)], which lets a NaN through. *)
Definition relu (x : A) : A := maximum x zero.

Definition softmax (logits : list A) : list A :=
  let e := map exp logits in
  let total := tsum e in
  map (fun z => div z total) e.

(** [PolicyNet.forward] on one row of the batch. *)
Definition PolicyNet_forward (net : PolicyNet) (state : list A) : list A :=
  let x := map relu (linear (fc1 net) state) in
  let logits := linear (fc2 net) x in
  softmax logits.

(** The shapes [torch.nn.Linear(in_features, out_features)] allocates. *)
Definition linear_shape (in_features out_features : nat) (l : Linear)
  : Prop :=
  length (weight l) = out_features /\
  length (bias l) = out_features /\
  Forall (fun row => length row = in_features) (weight l).

(** The shapes [PolicyNet(state_dim, action_dim)] allocates. *)
Definition policy_shape (state_dim action_dim : nat) (net : PolicyNet)
  : Prop :=
  linear_shape state_dim 128 (fc1 net) /\
  linear_shape 128 action_dim (fc2 net).
End PolicyNetwork.

(** ** The contract of the vectorized environment

    What the program expects of [envs]: [reset] and [step] return one row
    per environment. *)

Section EnvContract.
Context {A : Type}.
Variables Obs Action EnvState : Type.
Variable env_reset : EnvState -> list Obs * EnvState.
Variable env_step : list Action -> EnvState -> StepResult (A:=A) Obs * EnvState.

Definition env_shape (n : nat) : Prop :=
  (forall e, length (fst (env_reset e)) = n) /\
  (forall actions e,
      length (next_states (fst (env_step actions e))) = n /\
      length (rewards (fst (env_step actions e))) = n /\
      length (dones (fst (env_step actions e))) = n).
End EnvContract.

(** ** Reading tensors and loop states *)

(** [rows[a][b]], when both indices are in range. *)
Definition entry {X : Type} (rows : list (list X)) (a b : nat) : option X :=
  match nth_error rows a with
  | Some row => nth_error row b
  | None => None
  end.

(** The loop variables of the collector have the shapes the program means
    them to have for [n] environments. *)
Definition rollout_shape {A Obs Action : Type} (n : nat)
    (c : Rollout (A:=A) Obs Action) : Prop :=
  length (all_dones c) = n /\ length (all_rewards c) = n /\
  length (states c) = n /\
  Forall (fun row => length row = n) (all_states c) /\
  Forall (fun row => length row = n) (all_actions c) /\
  Forall (fun row => length row = n) (all_log_probs c).

(** ** Sample data for the network and the estimator *)

Module Sample.
(** A network for four-component states and two actions whose hidden units
    all read the first component. *)
Definition net : PolicyNet (A:=Q) :=
  mkPolicyNet (mkLinear (repeat [1; 0; 0; 0]%Q 128) (repeat 0%Q 128))
              (mkLinear [repeat 1%Q 128; repeat 0%Q 128] [0; 0]%Q).

(** A positive function standing for the exponential on the rationals. *)
Definition pos_exp (x : Q) : Q := (1 + x * x)%Q.

(** A non-negative function standing for the square root there. *)
Definition abs_sqrt : Sqrt Q := {| sqrt := Qabs |}.
End Sample.

(** The stub environment of [Stub], read in exact arithmetic. *)
Module ExactStub.
Definition Obs : Type := list Q.
Definition cart_position (o : Obs) : Q := nth 0 o 0%Q.

Definition observations : list Obs :=
  [[1 # 4; 0; 0; 0]; [0; 0; 0; 0]]%Q.

Definition env_num (_ : nat) : nat := 2.
Definition env_reset (_ : nat) : list Obs * nat := (observations, 0).
Definition env_step (_ : list bool) (t : nat)
  : StepResult (A:=Q) Obs * nat :=
  (mkStep observations [1; 1]%Q [2 <=? S t; 1 <=? S t], S t).

Definition forward (_ : unit) (_ : Obs) : list Q := [1 # 2; 1 # 2]%Q.
Definition sample (_ : list Q) (g : nat) : bool * nat := (Nat.odd g, S g).
Definition log_prob (_ : list Q) (_ : bool) : Q := (- (3 # 4))%Q.

Definition world : World nat nat unit unit := mkWorld 0 0 tt tt.

Definition collect (num_steps : Z) (gamma : Q)
  : Prog nat nat unit unit (Trajectories (A:=Q) Obs bool * list Q) :=
  collect_trajectory_vectorized cart_position env_num env_reset env_step
    forward sample log_prob num_steps gamma Cpu.
End ExactStub.

(** Collaborators of the update for the stub: a table lookup for
    [gather], stand-ins for the exponential and the logarithm, and an
    optimizer that counts its steps. *)
Module StubUpdate.
Definition gather (probs : list float) (a : bool) : float :=
  nth (if a then 1 else 0) probs 0%float.
Definition exp (x : float) : float := (1 + x)%float.
Definition log (x : float) : float := (x - 1)%float.
Definition backward (_ : nat -> float) (_ : nat) : unit := tt.
Definition optim_step (o : unit) (p : nat) (_ : unit) : unit * nat := (o, S p).
Definition forward (_ : nat) (_ : Stub.Obs) : list float := [0.5; 0.5]%float.
Definition world : World nat nat nat unit := mkWorld 0 0 0 tt.

(** The whole program on the stub. *)
Definition training : TrainResult (A:=float) * World nat nat nat unit :=
  train Stub.cart_position Stub.env_num Stub.env_reset Stub.env_step
    forward Stub.sample Stub.log_prob gather exp log backward optim_step
    Cpu world.
End StubUpdate.

(** * Properties *)

(** ** Lists and tensors *)

Section TensorFacts.
Variables X Y Z : Type.

Lemma map2_length (f : X -> Y -> Z) xs ys :
  length (map2 f xs ys) = Nat.min (length xs) (length ys).
Proof.
  revert ys; induction xs as [|x xs IH]; intros [|y ys]; simpl; auto.
Qed.

Lemma nth_error_map2 (f : X -> Y -> Z) xs ys i :
  nth_error (map2 f xs ys) i =
  match nth_error xs i, nth_error ys i with
  | Some x, Some y => Some (f x y)
  | _, _ => None
  end.
Proof.
  revert ys i; induction xs as [|x xs IH]; intros [|y ys] [|i]; simpl; auto;
    destruct (nth_error xs i); reflexivity.
Qed.

Lemma same_length_app n (rows : list (list X)) r :
  same_length n (rows ++ [r]) = same_length n rows && (length r =? n).
Proof.
  unfold same_length. rewrite forallb_app. simpl. now rewrite andb_true_r.
Qed.

Lemma same_length_Forall n (rows : list (list X)) :
  same_length n rows = true <-> Forall (fun r => length r = n) rows.
Proof.
  unfold same_length. rewrite forallb_forall, Forall_forall.
  split; intros H r Hr; specialize (H r Hr); now apply Nat.eqb_eq.
Qed.

(** A successful [stack] keeps the rows, which all have [dim1] entries. *)
Lemma stack_inr (rows : list (list X)) t :
  stack rows = inr t ->
  rows <> [] /\ data t = rows /\ dim0 t = length rows /\
  Forall (fun r => length r = dim1 t) rows /\
  map (@length X) rows = repeat (dim1 t) (length rows).
Proof.
  destruct rows as [|r rs]; [discriminate|].
  unfold stack. destruct (same_length (length r) rs) eqn:E; [|discriminate].
  intros H. injection H as <-. simpl.
  apply same_length_Forall in E.
  repeat split; try easy.
  - constructor; auto.
  - f_equal. induction E as [|r' rs' Hr _ IH]; simpl; [reflexivity|].
    now rewrite Hr, IH.
Qed.

(** [stack] fails on an empty list only with [StackEmpty], and never so
    on a list with a row. *)
Lemma stack_empty (rows : list (list X)) :
  stack rows = inl StackEmpty <-> rows = [].
Proof.
  destruct rows as [|r rs]; simpl; [tauto|].
  destruct (same_length (length r) rs); split; intros H; discriminate.
Qed.

(** Stacking depends on the lengths of the rows only. *)
Lemma stack_shape (rows : list (list X)) (rows' : list (list Y)) :
  map (@length X) rows = map (@length Y) rows' ->
  match stack rows, stack rows' with
  | inr t, inr t' => dim0 t = dim0 t' /\ dim1 t = dim1 t'
  | inl e, inl e' => e = e'
  | _, _ => False
  end.
Proof.
  intros H. destruct rows as [|r rs], rows' as [|r' rs']; try discriminate.
  - reflexivity.
  - simpl in H. injection H as Hr Hrs. unfold stack.
    assert (E : same_length (length r) rs = same_length (length r') rs').
    { unfold same_length. rewrite <- Hr. clear Hr.
      revert rs' Hrs. induction rs as [|a rs IH]; intros [|b rs'] Hrs;
        try discriminate; [reflexivity|].
      simpl in *. injection Hrs as Ha Hrs. rewrite Ha. f_equal. auto. }
    rewrite <- E. destruct (same_length (length r) rs); simpl.
    + split; [|assumption]. f_equal.
      rewrite <- (length_map (@length X)), Hrs. apply length_map.
    + reflexivity.
Qed.
End TensorFacts.

Section TransposeFacts.
Variable X : Type.

Lemma zip_cons_shape (row : list X) cols n k :
  length row = n -> length cols = n ->
  Forall (fun c => length c = k) cols ->
  length (zip_cons row cols) = n /\
  Forall (fun c => length c = S k) (zip_cons row cols).
Proof.
  unfold zip_cons. revert cols n.
  induction row as [|x row IH]; intros [|c cols] n Hr Hc Hk;
    simpl in *; subst; try discriminate; [split; auto|].
  inversion Hk; subst.
  injection Hc as Hc.
  destruct (IH cols (length row) eq_refl Hc H2) as [Hl Hf].
  split; [now rewrite Hl|]. constructor; auto.
Qed.

(** The transpose of [L] rows of [n] entries has [n] rows of [L]
    entries. *)
Lemma transpose_shape n (rows : list (list X)) :
  Forall (fun r => length r = n) rows ->
  length (transpose n rows) = n /\
  Forall (fun c => length c = length rows) (transpose n rows).
Proof.
  induction 1 as [|r rows Hr _ [IHl IHf]]; simpl.
  - rewrite repeat_length. split; [reflexivity|].
    apply Forall_forall. intros c Hc. apply repeat_spec in Hc. now subst.
  - now apply zip_cons_shape.
Qed.
End TransposeFacts.

(** ** The advantage estimator *)

Section AdvantageFacts.
Context {A : Type} {SA : Scalar A} {SQ : Sqrt A}.

(** C1: the advantage vector has the length of the reward vector, and its
    i-th entry is (r_i - mean r) / (std r + 1e-8): the constant is added
    to the standard deviation before the division. *)
Theorem calc_advantages_entries (rewards : list A) :
  length (calc_advantages_with_grpo rewards) = length rewards /\
  forall i,
    nth_error (calc_advantages_with_grpo rewards) i =
    option_map
      (fun r_i => div (sub r_i (mean rewards)) (add (std rewards) lit_1e_8))
      (nth_error rewards i).
Proof.
  unfold calc_advantages_with_grpo. split.
  - apply length_map.
  - intros i. apply nth_error_map.
Qed.
End AdvantageFacts.

(** ** The collector *)

Section ProgramFacts.
Context {A : Type} {SA : Scalar A} {SQ : Sqrt A}.
Variables Obs Action : Type.
Variables EnvState Rng Params OptState Grad : Type.
Variable cart_position : Obs -> A.
Variable env_num : EnvState -> nat.
Variable env_reset : EnvState -> list Obs * EnvState.
Variable env_step : list Action -> EnvState -> StepResult (A:=A) Obs * EnvState.
Variable forward : Params -> Obs -> list A.
Variable sample : list A -> Rng -> Action * Rng.
Variable log_prob : list A -> Action -> A.
Variable gather : list A -> Action -> A.
Variables exp log : A -> A.
Variable backward : (Params -> A) -> Params -> Grad.
Variable optim_step : OptState -> Params -> Grad -> OptState * Params.

Local Abbreviation W := (World EnvState Rng Params OptState).
Local Abbreviation P := (Prog EnvState Rng Params OptState).
Local Abbreviation body :=
  (collect_step (OptState:=OptState)
     cart_position env_step forward sample log_prob).
Local Abbreviation loop :=
  (collect_loop (OptState:=OptState)
     cart_position env_step forward sample log_prob).
Local Abbreviation run :=
  (run_steps (OptState:=OptState)
     cart_position env_step forward sample log_prob).
Local Abbreviation start :=
  (collector_start (Rng:=Rng) (Params:=Params) (OptState:=OptState)
     Action env_num env_reset).
Local Abbreviation collect :=
  (collect_trajectory_vectorized (OptState:=OptState)
     cart_position env_num env_reset env_step forward sample log_prob).
Local Abbreviation update :=
  (grpo_update (EnvState:=EnvState) (Rng:=Rng)
     forward gather exp log backward optim_step).
Local Abbreviation update_iter :=
  (update_loop (EnvState:=EnvState) (Rng:=Rng)
     forward gather exp log backward optim_step).
Local Abbreviation loss_of := (batch_loss forward gather exp log).

(** *** Running programs *)

Lemma bind_inr X Y (m : P X) (k : X -> P Y) w y w2 :
  bind m k w = (inr y, w2) ->
  exists x w1, m w = (inr x, w1) /\ k x w1 = (inr y, w2).
Proof.
  unfold bind. destruct (m w) as [[e|x] w1]; [discriminate|]. eauto.
Qed.

Lemma lift_inr X (r : Exn + X) (w w' : W) x :
  lift r w = (inr x, w') -> r = inr x /\ w' = w.
Proof. unfold lift. intros H. injection H as -> ->. auto. Qed.

Lemma sample_rows_length probs (g : Rng) :
  length (fst (sample_rows sample probs g)) = length probs.
Proof.
  revert g; induction probs as [|p ps IH]; intros g; simpl; [reflexivity|].
  destruct (sample p g) as [a g1]. specialize (IH g1).
  destruct (sample_rows sample ps g1) as [rest g2]. simpl in *. now rewrite IH.
Qed.

(** What a loop body that does not raise has done. *)
Lemma collect_step_inr c (w : W) c' w' :
  body c w = (inr c', w') ->
  exists actions r dones' rewards0 rewards1 total,
    length actions = length (states c) /\
    env_step actions (w_env w) = (r, w_env w') /\
    mask_set_true (all_dones c) (dones r) = inr dones' /\
    mask_fill (rewards r) dones' zero = inr rewards0 /\
    iadd rewards0 (penalty cart_position (next_states r)) = inr rewards1 /\
    iadd (all_rewards c) rewards1 = inr total /\
    c' = mkRollout (all_states c ++ [states c])
                   (all_actions c ++ [actions])
                   (all_log_probs c ++
                      [map2 log_prob (map (forward (w_policy w)) (states c))
                            actions])
                   total dones' (next_states r).
Proof.
  unfold collect_step. intros H.
  apply bind_inr in H as (probs & w1 & H1 & H).
  unfold policy_net in H1. injection H1 as <- <-.
  apply bind_inr in H as (actions & w2 & H2 & H).
  unfold dist_sample in H2.
  pose proof (sample_rows_length (map (forward (w_policy w)) (states c))
                (w_rng w)) as Hlen.
  destruct (sample_rows sample _ (w_rng w)) as [acts g]. simpl in Hlen.
  injection H2 as <- <-.
  apply bind_inr in H as (r & w3 & H3 & H).
  unfold envs_step in H3. simpl in H3.
  destruct (env_step acts (w_env w)) as [r0 e] eqn:Estep.
  injection H3 as <- <-.
  apply bind_inr in H as (dones' & w4 & H4 & H). apply lift_inr in H4 as [H4 ->].
  apply bind_inr in H as (rewards0 & w5 & H5 & H). apply lift_inr in H5 as [H5 ->].
  apply bind_inr in H as (rewards1 & w6 & H6 & H). apply lift_inr in H6 as [H6 ->].
  apply bind_inr in H as (total & w7 & H7 & H). apply lift_inr in H7 as [H7 ->].
  unfold ret in H. injection H as <- <-.
  exists acts, r0, dones', rewards0, rewards1, total. simpl.
  rewrite length_map in Hlen. repeat split; auto.
Qed.

(** *** The parameters of the policy *)

Lemma keeps_ret X (x : X) : keeps_policy (ret x : P X).
Proof. intros w. auto. Qed.

Lemma keeps_lift X (r : Exn + X) : keeps_policy (lift r : P X).
Proof. intros w. auto. Qed.

Lemma keeps_bind X Y (m : P X) (k : X -> P Y) :
  keeps_policy m -> (forall x, keeps_policy (k x)) -> keeps_policy (bind m k).
Proof.
  intros Hm Hk w. unfold bind. specialize (Hm w).
  destruct (m w) as [[e|x] w1]; simpl in *; [assumption|].
  destruct (Hk x w1) as [H1 H2]. destruct Hm as [H3 H4].
  now rewrite H1, H2.
Qed.

Lemma keeps_envs_num_envs : keeps_policy (envs_num_envs env_num : P nat).
Proof. intros w. auto. Qed.

Lemma keeps_envs_reset : keeps_policy (envs_reset env_reset : P (list Obs)).
Proof.
  intros w. unfold envs_reset. destruct (env_reset (w_env w)). auto.
Qed.

Lemma keeps_envs_step actions :
  keeps_policy (envs_step env_step actions : P (StepResult Obs)).
Proof.
  intros w. unfold envs_step. destruct (env_step actions (w_env w)). auto.
Qed.

Lemma keeps_policy_net sts :
  keeps_policy (policy_net forward sts : P (list (list A))).
Proof. intros w. auto. Qed.

Lemma keeps_dist_sample probs :
  keeps_policy (dist_sample sample probs : P (list Action)).
Proof.
  intros w. unfold dist_sample. destruct (sample_rows sample probs (w_rng w)).
  auto.
Qed.

Create HintDb keeps.
Hint Resolve keeps_ret keeps_lift keeps_bind keeps_envs_num_envs
  keeps_envs_reset keeps_envs_step keeps_policy_net keeps_dist_sample : keeps.

Lemma keeps_collect_step c : keeps_policy (body c).
Proof. unfold collect_step. auto 20 with keeps. Qed.

Lemma keeps_collect_loop fuel : forall c, keeps_policy (loop fuel c).
Proof.
  induction fuel as [|fuel IH]; intros c; simpl.
  - apply keeps_ret.
  - apply keeps_bind; [apply keeps_collect_step|].
    intros c'. destruct (all_true (all_dones c')); auto with keeps.
Qed.

Lemma keeps_collect num_steps gamma device :
  keeps_policy (collect num_steps gamma device).
Proof.
  unfold collect_trajectory_vectorized.
  pose proof keeps_collect_loop. auto 20 with keeps.
Qed.

Lemma update_loop_world n : forall trajectories advantages eps last (w : W),
  dim0 (t_all_states trajectories) <> 0 ->
  let w' := snd (update_iter n trajectories advantages eps last w) in
  w_env w' = w_env w /\ w_rng w' = w_rng w /\
  (w_optim w', w_policy w') =
    optimizer_steps backward optim_step (loss_of trajectories advantages eps)
      n (w_optim w, w_policy w).
Proof.
  induction n as [|n IH]; intros trajectories advantages eps last w Hd.
  - simpl. auto.
  - cbn [update_loop]. apply Nat.eqb_neq in Hd as Hd'. rewrite Hd'.
    unfold bind, optimizer_step.
    destruct (optim_step (w_optim w) (w_policy w) _) as [o p] eqn:E.
    specialize (IH trajectories advantages eps
                   (Some (loss_of trajectories advantages eps (w_policy w)))
                   (mkWorld (w_env w) (w_rng w) p o) Hd).
    cbv zeta in IH. cbn [w_env w_rng w_policy w_optim] in IH.
    destruct IH as (H1 & H2 & H3).
    repeat split; auto. rewrite H3.
    unfold optimizer_steps. rewrite Nat.iter_succ_r. cbn [fst snd].
    now rewrite E.
Qed.

(** C8: the collector leaves the parameters of the policy (and the state
    of the optimizer) as they were, and a call of the update routine
    changes them by its optimizer steps and by nothing else: the
    environment and the random generator are untouched, and the new
    parameters are the old ones after one optimizer step per inner
    iteration. *)
Theorem policy_changed_only_by_optimizer :
  (forall num_steps gamma device (w : W),
      let w' := snd (collect num_steps gamma device w) in
      w_policy w' = w_policy w /\ w_optim w' = w_optim w) /\
  (forall trajectories n_iterations eps (w : W),
      let w' := snd (update trajectories n_iterations eps w) in
      let advantages :=
        calc_advantages_with_grpo (t_normalized_rewards trajectories) in
      let k :=
        if dim0 (t_all_states trajectories) =? 0 then 0 else n_iterations in
      w_env w' = w_env w /\ w_rng w' = w_rng w /\
      (w_optim w', w_policy w') =
        optimizer_steps backward optim_step
          (loss_of trajectories advantages eps) k (w_optim w, w_policy w)).
Proof.
  split.
  - intros num_steps gamma device w. apply keeps_collect.
  - intros trajectories n_iterations eps w. cbv zeta.
    unfold grpo_update.
    set (adv := calc_advantages_with_grpo _).
    assert (Hk : forall (m : P (option A)) w0,
               snd (bind m (fun last => match last with
                                        | Some l => ret l
                                        | None => raise Unbound
                                        end) w0) = snd (m w0)).
    { intros m w0. unfold bind. destruct (m w0) as [[e|[l|]] w1]; reflexivity. }
    rewrite Hk. clear Hk.
    destruct (dim0 (t_all_states trajectories) =? 0) eqn:E.
    + destruct n_iterations as [|n]; simpl; [auto|].
      rewrite E. simpl. auto.
    + apply Nat.eqb_neq in E.
      exact (update_loop_world n_iterations trajectories adv eps None w E).
Qed.

(** C6: the discount factor is a dead parameter of the collector: two
    runs from the same environment, generator and policy that differ in
    [gamma] only return the same states, actions, log-probabilities,
    normalized rewards and episode rewards, and leave the same world. *)
Theorem gamma_is_ignored num_steps gamma1 gamma2 device (w : W) :
  collect num_steps gamma1 device w = collect num_steps gamma2 device w.
Proof. reflexivity. Qed.

(** *** Shapes *)

Lemma collect_step_aligned c (w : W) c' w' :
  body c w = (inr c', w') ->
  map (@length _) (all_states c) = map (@length _) (all_actions c) ->
  map (@length _) (all_states c) = map (@length _) (all_log_probs c) ->
  map (@length _) (all_states c') = map (@length _) (all_actions c') /\
  map (@length _) (all_states c') = map (@length _) (all_log_probs c').
Proof.
  intros H Ha Hl.
  apply collect_step_inr in H
    as (actions & r & d & r0 & r1 & tot & Hlen & _ & _ & _ & _ & _ & ->).
  simpl. rewrite !map_app. simpl.
  rewrite map2_length, length_map, Hlen, Nat.min_id, <- Ha, <- Hl. auto.
Qed.

Lemma collect_loop_aligned fuel : forall c (w : W) c' w',
  loop fuel c w = (inr c', w') ->
  map (@length _) (all_states c) = map (@length _) (all_actions c) ->
  map (@length _) (all_states c) = map (@length _) (all_log_probs c) ->
  map (@length _) (all_states c') = map (@length _) (all_actions c') /\
  map (@length _) (all_states c') = map (@length _) (all_log_probs c').
Proof.
  induction fuel as [|fuel IH]; intros c w c' w' H Ha Hl; simpl in H.
  - unfold ret in H. injection H as <- <-. auto.
  - apply bind_inr in H as (c1 & w1 & H1 & H).
    destruct (collect_step_aligned _ _ H1 Ha Hl) as [Ha1 Hl1].
    destruct (all_true (all_dones c1)).
    + unfold ret in H. injection H as <- <-. auto.
    + eauto.
Qed.

Lemma collect_unfold num_steps gamma device (w : W) :
  collect num_steps gamma device w =
  match loop (Z.to_nat num_steps) (fst (start w)) (snd (start w)) with
  | (inl e, w1) => (inl e, w1)
  | (inr c, w1) =>
      let normalized :=
        map (fun x => div x (of_Z num_steps)) (all_rewards c) in
      match stack (all_states c), stack (all_log_probs c),
            stack (all_actions c) with
      | inr ts, inr tl, inr ta =>
          (inr (mkTrajectories (permute_1_0 ts) (permute_1_0 tl)
                  (permute_1_0 ta) normalized,
                map (fun x => mul x (of_Z num_steps)) normalized), w1)
      | inl e, _, _ => (inl e, w1)
      | inr _, inl e, _ => (inl e, w1)
      | inr _, inr _, inl e => (inl e, w1)
      end
  end.
Proof.
  unfold collect_trajectory_vectorized, collector_start, bind,
    envs_num_envs, envs_reset, lift, ret.
  destruct (env_reset (w_env w)) as [o en]. cbn [fst snd].
  destruct (loop _ _ _) as [[e|c] w1]; [reflexivity|].
  destruct (stack (all_states c)); [reflexivity|].
  destruct (stack (all_log_probs c)); [reflexivity|].
  destruct (stack (all_actions c)); reflexivity.
Qed.

(** What a call of the collector that returns has done: the loop ran from
    the reset environment, the three lists were stacked, and the rewards
    were divided by [num_steps]. *)
Lemma collect_inr num_steps gamma device (w : W) traj er w' :
  collect num_steps gamma device w = (inr (traj, er), w') ->
  exists c ts tl ta,
    loop (Z.to_nat num_steps) (fst (start w)) (snd (start w)) = (inr c, w') /\
    stack (all_states c) = inr ts /\
    stack (all_log_probs c) = inr tl /\
    stack (all_actions c) = inr ta /\
    traj = mkTrajectories (permute_1_0 ts) (permute_1_0 tl) (permute_1_0 ta)
             (map (fun x => div x (of_Z num_steps)) (all_rewards c)) /\
    er = map (fun x => mul x (of_Z num_steps))
             (map (fun x => div x (of_Z num_steps)) (all_rewards c)).
Proof.
  rewrite collect_unfold.
  destruct (loop _ _ _) as [[e|c] w1] eqn:Hloop; [discriminate|]. cbv zeta.
  destruct (stack (all_states c)) as [e|ts] eqn:Es; [discriminate|].
  destruct (stack (all_log_probs c)) as [e|tl] eqn:El; [discriminate|].
  destruct (stack (all_actions c)) as [e|ta] eqn:Ea; [discriminate|].
  intros H. injection H as <- <- <-.
  exists c, ts, tl, ta. repeat split; auto.
Qed.

Lemma repeat_inj (x y : nat) n : n <> 0 -> repeat x n = repeat y n -> x = y.
Proof. destruct n; [congruence|]. simpl. intros _ H. now injection H. Qed.

(** C7: in a batch returned by the collector the tensors of observations,
    log-probabilities and actions have one and the same shape, episodes
    first and time second; so the three sequences of every episode have
    the same length, the number of timesteps recorded. *)
Theorem record_sequences_have_equal_length
    num_steps gamma device (w : W) traj er w' :
  collect num_steps gamma device w = (inr (traj, er), w') ->
  let S := t_all_states traj in
  let L := t_all_log_probs traj in
  let C := t_all_actions traj in
  (dim0 L = dim0 S /\ dim0 C = dim0 S) /\
  (dim1 L = dim1 S /\ dim1 C = dim1 S) /\
  (length (data S) = dim0 S /\ length (data L) = dim0 S /\
   length (data C) = dim0 S) /\
  (forall i s l a,
      nth_error (data S) i = Some s ->
      nth_error (data L) i = Some l ->
      nth_error (data C) i = Some a ->
      length s = dim1 S /\ length l = dim1 S /\ length a = dim1 S) /\
  (exists c, loop (Z.to_nat num_steps) (fst (start w)) (snd (start w))
             = (inr c, w') /\
             length (all_states c) = dim1 S /\
             length (all_log_probs c) = dim1 S /\
             length (all_actions c) = dim1 S).
Proof.
  intros H. apply collect_inr in H
    as (c & ts & tl & ta & Hloop & Hs & Hl & Ha & -> & _).
  cbv zeta. cbn [t_all_states t_all_log_probs t_all_actions].
  assert (Hal : map (@length _) (all_states c) = map (@length _) (all_actions c) /\
                map (@length _) (all_states c) = map (@length _) (all_log_probs c)).
  { apply (collect_loop_aligned _ _ _ Hloop);
      unfold collector_start; destruct (env_reset (w_env w)); reflexivity. }
  destruct Hal as [Hsa Hsl].
  apply stack_inr in Hs as (Hne & Hds & H0s & Hfs & Hms).
  apply stack_inr in Hl as (_ & Hdl & H0l & Hfl & Hml).
  apply stack_inr in Ha as (_ & Hda & H0a & Hfa & Hma).
  assert (Hlen_l : length (all_log_probs c) = length (all_states c)).
  { rewrite <- (length_map (@length _) (all_log_probs c)), <- Hsl.
    apply length_map. }
  assert (Hlen_a : length (all_actions c) = length (all_states c)).
  { rewrite <- (length_map (@length _) (all_actions c)), <- Hsa.
    apply length_map. }
  assert (Hn : length (all_states c) <> 0).
  { destruct (all_states c); [congruence|discriminate]. }
  assert (E1l : dim1 tl = dim1 ts).
  { apply repeat_inj with (n := length (all_states c)); [exact Hn|].
    rewrite <- Hms, Hsl, Hml. now rewrite Hlen_l. }
  assert (E1a : dim1 ta = dim1 ts).
  { apply repeat_inj with (n := length (all_states c)); [exact Hn|].
    rewrite <- Hms, Hsa, Hma. now rewrite Hlen_a. }
  unfold permute_1_0. cbn [dim0 dim1 data].
  rewrite Hds, Hdl, Hda, H0s, H0l, H0a, E1l, E1a, Hlen_l, Hlen_a.
  rewrite E1l in Hfl. rewrite E1a in Hfa.
  destruct (transpose_shape Hfs) as [Ts Fs].
  destruct (transpose_shape Hfl) as [Tl Fl].
  destruct (transpose_shape Hfa) as [Ta Fa].
  rewrite Hlen_l in Fl. rewrite Hlen_a in Fa.
  repeat split; auto.
  - eapply Forall_forall in Fs; [eassumption|]. eapply nth_error_In; eauto.
  - eapply Forall_forall in Fl; [eassumption|]. eapply nth_error_In; eauto.
  - eapply Forall_forall in Fa; [eassumption|]. eapply nth_error_In; eauto.
  - exists c. auto.
Qed.

(** *** The number of recorded timesteps *)

Lemma find_first_ext (p q : nat -> bool) n :
  (forall t, p t = q t) -> find_first p n = find_first q n.
Proof.
  revert p q; induction n as [|n IH]; intros p q H; simpl; [reflexivity|].
  rewrite H. destruct (q 0); [reflexivity|].
  f_equal. apply IH. intros t. apply H.
Qed.

Lemma find_first_none (p : nat -> bool) n :
  (forall t, p t = false) -> find_first p n = None.
Proof.
  revert p; induction n as [|n IH]; intros p H; simpl; [reflexivity|].
  rewrite H, IH; [reflexivity|]. intros t. apply H.
Qed.

Lemma find_first_some (p : nat -> bool) n k :
  find_first p n = Some k ->
  k < n /\ p k = true /\ forall t, t < k -> p t = false.
Proof.
  revert p k; induction n as [|n IH]; intros p k; simpl; [discriminate|].
  destruct (p 0) eqn:E0.
  - intros H. injection H as <-. repeat split; [lia|assumption|lia].
  - destruct (find_first (fun t => p (S t)) n) as [j|] eqn:Ej; [|discriminate].
    simpl. intros H. injection H as <-.
    destruct (IH _ _ Ej) as (Hlt & Hp & Hmin).
    repeat split; [lia|assumption|].
    intros [|t] Ht; [assumption|]. apply Hmin. lia.
Qed.

Lemma steps_taken_bounds c (w : W) n :
  steps_taken cart_position env_step forward sample log_prob c w n <= n /\
  (1 <= n ->
   1 <= steps_taken cart_position env_step forward sample log_prob c w n).
Proof.
  unfold steps_taken. destruct (find_first _ n); lia.
Qed.

Lemma run_steps_S n c (w : W) :
  run (S n) c w =
  match body c w with
  | (inr c1, w1) => run n c1 w1
  | (inl e, w1) => (inl e, w1)
  end.
Proof. reflexivity. Qed.

(** The loop with its early exit runs the body as many times as the trace
    of the environment says: up to and including the first step after
    which every environment is done. *)
Lemma collect_loop_is_run fuel : forall c (w : W),
  loop fuel c w =
  run (steps_taken cart_position env_step forward sample log_prob c w fuel)
      c w.
Proof.
  unfold steps_taken.
  induction fuel as [|fuel IH]; intros c w; [reflexivity|].
  cbn [collect_loop find_first]. unfold all_done_after at 1.
  rewrite (run_steps_S 0 c w). unfold bind at 1.
  assert (Hshift : forall c1 w1 t,
             body c w = (inr c1, w1) ->
             all_done_after cart_position env_step forward sample log_prob
               c w (S t) =
             all_done_after cart_position env_step forward sample log_prob
               c1 w1 t).
  { intros c1 w1 t Hb. unfold all_done_after.
    now rewrite (run_steps_S (S t) c w), Hb. }
  destruct (body c w) as [[e|c1] w1] eqn:Hbody.
  - cbn [fst]. rewrite find_first_none.
    + cbn [option_map]. now rewrite (run_steps_S fuel c w), Hbody.
    + intros t. unfold all_done_after.
      now rewrite (run_steps_S (S t) c w), Hbody.
  - cbn [run_steps ret fst].
    destruct (all_true (all_dones c1)) eqn:Hall.
    + replace (Nat.min (S fuel) (1 + 0)) with 1 by lia.
      now rewrite (run_steps_S 0 c w), Hbody.
    + rewrite IH.
      rewrite (find_first_ext _
                 (all_done_after cart_position env_step forward sample
                    log_prob c1 w1) fuel (fun t => Hshift c1 w1 t eq_refl)).
      destruct (find_first _ fuel) as [k|]; cbn [option_map].
      * replace (Nat.min (S fuel) (1 + S k)) with (S (Nat.min fuel (1 + k)))
          by lia.
        now rewrite (run_steps_S (Nat.min fuel (1 + k)) c w), Hbody.
      * now rewrite (run_steps_S fuel c w), Hbody.
Qed.

Lemma run_steps_lengths n : forall c (w : W) c' w',
  run n c w = (inr c', w') ->
  length (all_states c') = length (all_states c) + n /\
  length (all_actions c') = length (all_actions c) + n /\
  length (all_log_probs c') = length (all_log_probs c) + n.
Proof.
  induction n as [|n IH]; intros c w c' w' H.
  - simpl in H. unfold ret in H. injection H as <- <-. lia.
  - rewrite run_steps_S in H.
    destruct (body c w) as [[e|c1] w1] eqn:Hbody; [discriminate|].
    apply IH in H as (H1 & H2 & H3).
    apply collect_step_inr in Hbody
      as (actions & r & d & r0 & r1 & tot & _ & _ & _ & _ & _ & _ & ->).
    simpl in *. rewrite length_app in H1, H2, H3. simpl in *. lia.
Qed.

(** The exceptions of the loop body come from its in-place operations. *)
Lemma collect_step_inl c (w : W) e w' :
  body c w = (inl e, w') -> e = IndexMismatch \/ e = BroadcastError.
Proof.
  unfold collect_step, bind, policy_net, dist_sample, envs_step, lift, ret.
  destruct (sample_rows sample _ (w_rng w)) as [acts g]. simpl.
  destruct (env_step acts (w_env w)) as [r en].
  unfold mask_set_true, mask_fill, iadd, broadcast_to.
  repeat match goal with
         | |- context [if ?b then _ else _] => destruct b
         | |- context [match ?l with [] => _ | _ :: _ => _ end] => destruct l
         end;
    intros H; first [discriminate | injection H as <- _; auto].
Qed.

Lemma run_steps_inl n : forall c (w : W) e w',
  run n c w = (inl e, w') -> e = IndexMismatch \/ e = BroadcastError.
Proof.
  induction n as [|n IH]; intros c w e w' H; [discriminate|].
  rewrite run_steps_S in H.
  destruct (body c w) as [[e1|c1] w1] eqn:Hbody.
  - injection H as <- _. eapply collect_step_inl; eassumption.
  - eauto.
Qed.


(** C3: the normalized reward of an episode is its accumulated shaped
    reward divided by [num_steps], whatever the number [n] of steps the
    loop ran: the totals are those of [n] loop bodies, [n] is the time
    dimension of the batch, [n] may be smaller than [num_steps] (then
    every environment was done), and the divisor is [num_steps] still.
    [n] is what the trace of the environment makes it: one more than the
    first step after which all are done, when there is one in time.  The
    episode rewards are the normalized rewards times [num_steps]. *)
Theorem normalized_rewards_divide_by_num_steps
    num_steps gamma device (w : W) traj er w' :
  collect num_steps gamma device w = (inr (traj, er), w') ->
  let n := dim1 (t_all_states traj) in
  exists c,
    run n (fst (start w)) (snd (start w)) = (inr c, w') /\
    n = steps_taken cart_position env_step forward sample log_prob
          (fst (start w)) (snd (start w)) (Z.to_nat num_steps) /\
    n <= Z.to_nat num_steps /\
    (n < Z.to_nat num_steps -> all_true (all_dones c) = true) /\
    t_normalized_rewards traj =
      map (fun total => div total (of_Z num_steps)) (all_rewards c) /\
    er = map (fun x => mul x (of_Z num_steps)) (t_normalized_rewards traj).
Proof.
  intros H. apply collect_inr in H
    as (c & ts & tl & ta & Hloop & Hs & _ & _ & -> & ->).
  cbv zeta. cbn [t_all_states t_normalized_rewards permute_1_0 dim1].
  apply stack_inr in Hs as (_ & _ & -> & _).
  rewrite collect_loop_is_run in Hloop.
  set (c0 := fst (start w)) in *. set (w0 := snd (start w)) in *.
  pose proof Hloop as Hlen. apply run_steps_lengths in Hlen as (Hlen & _).
  assert (H0 : length (all_states c0) = 0).
  { unfold c0, collector_start. now destruct (env_reset (w_env w)). }
  rewrite H0 in Hlen. simpl in Hlen. rewrite Hlen.
  exists c. split; [exact Hloop|].
  split; [reflexivity|].
  split; [apply steps_taken_bounds|].
  split; [|split; reflexivity].
  unfold steps_taken in *.
  destruct (find_first _ (Z.to_nat num_steps)) as [k|] eqn:Ek; [|lia].
  apply find_first_some in Ek as (Hk & Hp & _).
  replace (Nat.min (Z.to_nat num_steps) (1 + k)) with (S k) in * by lia.
  intros _. unfold all_done_after in Hp. now rewrite Hloop in Hp.
Qed.

(** *** Sticky termination *)

Lemma mask_set_true_sticky target mask d i :
  mask_set_true target mask = inr d ->
  nth_error target i = Some true -> nth_error d i = Some true.
Proof.
  unfold mask_set_true.
  destruct (length mask =? length target) eqn:E; [|discriminate].
  apply Nat.eqb_eq in E. intros H Hi. injection H as <-.
  rewrite nth_error_map2, Hi.
  destruct (nth_error mask i) eqn:Em; [reflexivity|].
  apply nth_error_None in Em.
  assert (i < length target) by (apply nth_error_Some; congruence). lia.
Qed.

Lemma mask_fill_nth (target : list A) mask v filled i :
  mask_fill target mask v = inr filled ->
  nth_error mask i = Some true -> nth_error filled i = Some v.
Proof.
  unfold mask_fill.
  destruct (length mask =? length target) eqn:E; [|discriminate].
  apply Nat.eqb_eq in E. intros H Hi. injection H as <-.
  rewrite nth_error_map2, Hi.
  destruct (nth_error target i) eqn:Et; [reflexivity|].
  apply nth_error_None in Et.
  assert (i < length mask) by (apply nth_error_Some; congruence). lia.
Qed.

Lemma broadcast_to_nth n (xs ys : list A) i x :
  broadcast_to n xs = inr ys ->
  nth_error xs i = Some x -> i < n -> nth_error ys i = Some x.
Proof.
  unfold broadcast_to. destruct (length xs =? n).
  - intros H. now injection H as <-.
  - destruct xs as [|x0 [|x1 xs]]; try discriminate.
    intros H Hi Hn. injection H as <-.
    destruct i as [|i]; simpl in Hi; [|destruct i; discriminate].
    injection Hi as ->. destruct n; [lia|reflexivity].
Qed.

Lemma iadd_nth (target other total : list A) i t x :
  iadd target other = inr total ->
  nth_error target i = Some t -> nth_error other i = Some x ->
  nth_error total i = Some (add t x).
Proof.
  unfold iadd.
  destruct (broadcast_to (length target) other) as [e|o] eqn:E; [discriminate|].
  intros H Ht Hx. injection H as <-.
  assert (Hi : i < length target) by (apply nth_error_Some; congruence).
  rewrite nth_error_map2, Ht.
  erewrite broadcast_to_nth by eassumption. reflexivity.
Qed.

(** One loop body, seen from an environment that is already flagged
    done: the flag stays, and the total grows by 0 + (-|position|), the
    zeroed raw reward plus the shaping penalty. *)
Lemma collect_step_done c (w : W) c' w' i :
  body c w = (inr c', w') ->
  nth_error (all_dones c) i = Some true ->
  nth_error (all_dones c') i = Some true /\
  forall a o,
    nth_error (all_rewards c) i = Some a ->
    nth_error (states c') i = Some o ->
    nth_error (all_rewards c') i =
    Some (add a (add zero (neg (absv (cart_position o))))).
Proof.
  intros H Hd.
  apply collect_step_inr in H
    as (actions & r & d & r0 & r1 & tot & _ & _ & Hm & Hf & H1 & H2 & ->).
  cbn [all_dones all_rewards states].
  assert (Hd' : nth_error d i = Some true)
    by (eapply mask_set_true_sticky; eassumption).
  split; [exact Hd'|]. intros a o Ha Ho.
  assert (Hz : nth_error r0 i = Some zero)
    by (eapply mask_fill_nth; eassumption).
  assert (Hp : nth_error (penalty cart_position (next_states r)) i =
               Some (neg (absv (cart_position o)))).
  { unfold penalty. now rewrite nth_error_map, Ho. }
  eapply iadd_nth; [eassumption..|].
  eapply iadd_nth; eassumption.
Qed.

Lemma collect_loop_sticky fuel : forall c (w : W) c' w' i,
  loop fuel c w = (inr c', w') ->
  nth_error (all_dones c) i = Some true ->
  nth_error (all_dones c') i = Some true.
Proof.
  induction fuel as [|fuel IH]; intros c w c' w' i H Hd; simpl in H.
  - unfold ret in H. now injection H as <- <-.
  - apply bind_inr in H as (c1 & w1 & H1 & H).
    eapply collect_step_done in Hd as [Hd1 _]; [|eassumption].
    destruct (all_true (all_dones c1)).
    + unfold ret in H. now injection H as <- <-.
    + eauto.
Qed.

(** *** The outer loop *)

Local Abbreviation training_loop :=
  (train_loop cart_position env_num env_reset env_step forward sample
     log_prob gather exp log backward optim_step).
Local Abbreviation training :=
  (train cart_position env_num env_reset env_step forward sample
     log_prob gather exp log backward optim_step).
Local Abbreviation below_threshold :=
  (fun avg : A => gtb avg (of_Z (max_steps - 5)) = false).

Lemma train_loop_spec device fuel : forall entered rl (w : W),
  let res := fst (training_loop device fuel entered rl w) in
  exists new,
    return_list res = rl ++ new /\
    match exit res with
    | Exhausted =>
        iterations res = entered + fuel /\ length new = fuel /\
        Forall below_threshold new
    | EarlyStop =>
        iterations res = entered + length new /\ length new <= fuel /\
        exists before avg,
          new = before ++ [avg] /\
          gtb avg (of_Z (max_steps - 5)) = true /\
          Forall below_threshold before
    | Raised _ =>
        iterations res = entered + length new + 1 /\ length new < fuel /\
        Forall below_threshold new
    end.
Proof.
  induction fuel as [|fuel IH]; intros entered rl w; cbn [train_loop].
  - exists []. cbn. rewrite app_nil_r. repeat split; auto.
  - destruct (train_step _ _ _ _ _ _ _ _ _ _ _ _ device w)
      as [[e|avg] w1].
    + exists []. cbn. rewrite app_nil_r. repeat split; auto; lia.
    + destruct (gtb avg (of_Z (max_steps - 5))) eqn:Hgt.
      * exists [avg]. cbn. repeat split; auto; try lia.
        exists [], avg. auto.
      * specialize (IH (S entered) (rl ++ [avg]) w1). cbv zeta in IH.
        destruct IH as (new & Hrl & Hexit).
        exists (avg :: new). cbv zeta.
        split; [rewrite Hrl, <- app_assoc; reflexivity|].
        destruct (exit _).
        -- destruct Hexit as (Hi & Hl & Hf).
           repeat split; cbn; auto; lia.
        -- destruct Hexit as (Hi & Hl & before & last & -> & Hg & Hf).
           repeat split; cbn [length]; try lia.
           exists (avg :: before), last. repeat split; auto.
        -- destruct Hexit as (Hi & Hl & Hf).
           repeat split; cbn [length]; auto; lia.
Qed.

End ProgramFacts.

(** ** Exact arithmetic: the clipped surrogate *)

Section ClippingFacts.
Local Open Scope Q_scope.

Lemma Q_ltb_true (x y : Q) : ltb x y = true -> x < y.
Proof.
  cbn. intros H. apply negb_true_iff in H.
  apply Qnot_le_lt. intros Hle. apply Qle_bool_iff in Hle. congruence.
Qed.

Lemma Q_ltb_false (x y : Q) : ltb x y = false -> y <= x.
Proof.
  cbn. intros H. apply negb_false_iff in H. now apply Qle_bool_iff.
Qed.

Lemma Q_ltb_lt (x y : Q) : x < y -> ltb x y = true.
Proof.
  intros H. destruct (ltb x y) eqn:E; [reflexivity|].
  apply Q_ltb_false in E. lra.
Qed.

Lemma Q_ltb_ge (x y : Q) : y <= x -> ltb x y = false.
Proof.
  intros H. destruct (ltb x y) eqn:E; [|reflexivity].
  apply Q_ltb_true in E. lra.
Qed.

Lemma Q_clamp_above (x lo hi : Q) :
  lo <= hi -> hi < x -> clamp x lo hi = hi.
Proof.
  intros Hb Hx. unfold clamp, minimum, maximum. cbn [isnan Q_scalar].
  rewrite (@Q_ltb_ge x lo) by lra. now rewrite (@Q_ltb_lt hi x).
Qed.

Lemma Q_clamp_below (x lo hi : Q) :
  lo <= hi -> x < lo -> clamp x lo hi = lo.
Proof.
  intros Hb Hx. unfold clamp, minimum, maximum. cbn [isnan Q_scalar].
  rewrite (@Q_ltb_lt x lo) by lra. now rewrite (@Q_ltb_ge hi lo).
Qed.

Ltac order_cases :=
  repeat match goal with
         | |- context [ltb ?x ?y] =>
             let E := fresh "E" in
             destruct (ltb x y) eqn:E;
             [apply Q_ltb_true in E | apply Q_ltb_false in E]
         end.


End ClippingFacts.

(** ** Floating point *)

Section FloatFacts.
Local Open Scope float_scope.

Lemma div_eucl_mul (a b : Z) : (0 < b)%Z -> Z.div_eucl (a * b) b = (a, 0%Z).
Proof.
  intros Hb.
  pose proof (Z.div_mul a b ltac:(lia)) as Hd.
  pose proof (Z.mod_mul a b ltac:(lia)) as Hm.
  unfold Z.div, Z.modulo in *.
  destruct (Z.div_eucl (a * b) b) as [q r]. simpl in *. congruence.
Qed.

(** Division by one is exact: the quotient of a finite number by 1 is the
    number itself, normal or subnormal. *)
Lemma SFdiv_one s m e :
  valid_binary (S754_finite s m e) = true ->
  SF64div (S754_finite s m e) (S754_finite false 4503599627370496 (-52))
  = S754_finite s m e.
Proof.
  unfold valid_binary, SpecFloat.valid_binary, bounded, canonical_mantissa,
    fexp, emin.
  intros H. apply andb_true_iff in H as [Hc He].
  apply Z.eqb_eq in Hc. apply Z.leb_le in He.
  change prec with 53%Z in *. change emax with 1024%Z in *.
  set (d := Zpos (digits2_pos m)) in *.
  assert (Hd : (1 <= d)%Z) by (unfold d; lia).
  unfold SF64div, SFdiv, SFdiv_core_binary, fexp, emin.
  change prec with 53%Z. change emax with 1024%Z.
  change (Zdigits2 (Zpos m)) with d.
  change (Zdigits2 4503599627370496) with 53%Z.
  rewrite xorb_false_r.
  destruct (Z.eq_dec e (-1074)) as [He0|He0].
  - (* the least exponent: the quotient needs no rounding *)
    subst e.
    replace (Z.min (Z.max (d + -1074 - (53 + -52) - 53) (3 - 1024 - 53))
                   (-1074 - -52)) with (-1074)%Z by lia.
    change (-1074 - -52 - -1074)%Z with 52%Z.
    rewrite Z.shiftl_mul_pow2 by lia.
    change (2 ^ 52)%Z with 4503599627370496%Z.
    rewrite div_eucl_mul by lia.
    unfold binary_round_aux, shr_fexp, fexp, emin.
    cbn [new_location Z.even new_location_even Z.eqb shr_record_of_loc].
    change (Zdigits2 (Zpos m)) with d.
    replace (Z.max (d + -1074 - 53) (3 - 1024 - 53) - -1074)%Z with 0%Z by lia.
    cbn [shr shr_m loc_of_shr_record round_nearest_even shr_record_of_loc].
    change (Zdigits2 (Zpos m)) with d.
    replace (Z.max (d + -1074 - 53) (3 - 1024 - 53) - -1074)%Z with 0%Z by lia.
    reflexivity.
  - (* a normal number: one more bit is computed, then shifted out *)
    replace (Z.min (Z.max (d + e - (53 + -52) - 53) (3 - 1024 - 53))
                   (e - -52)) with (e - 1)%Z by lia.
    replace (e - -52 - (e - 1))%Z with 53%Z by lia.
    rewrite Z.shiftl_mul_pow2 by lia.
    replace (Zpos m * 2 ^ 53)%Z with (Zpos (xO m) * 4503599627370496)%Z by lia.
    rewrite div_eucl_mul by lia.
    unfold binary_round_aux, shr_fexp, fexp, emin.
    cbn [new_location Z.even new_location_even Z.eqb shr_record_of_loc].
    change (Zdigits2 (Zpos m~0)) with (Zpos (Pos.succ (digits2_pos m))).
    rewrite Pos2Z.inj_succ. fold d.
    replace (Z.max (Z.succ d + (e - 1) - 53) (3 - 1024 - 53) - (e - 1))%Z
      with 1%Z by lia.
    cbn [shr iter_pos shr_1 orb shr_m loc_of_shr_record round_nearest_even
           shr_record_of_loc].
    change (Zdigits2 (Zpos m)) with d.
    replace (e - 1 + 1)%Z with e by lia.
    replace (Z.max (d + e - 53) (3 - 1024 - 53) - e)%Z with 0%Z by lia.
    cbn [shr shr_m].
    destruct (e <=? 1024 - 53)%Z eqn:E; [reflexivity|].
    apply Z.leb_gt in E. lia.
Qed.

(** A finite number minus itself is +0. *)
Lemma SFsub_diag s m e :
  SF64sub (S754_finite s m e) (S754_finite s m e) = S754_zero false.
Proof.
  unfold SF64sub, SFsub. now rewrite Z.sub_diag.
Qed.

(** The numerator r - mean [r] of a batch of one. *)
Lemma single_numerator (r : float) :
  let d := Prim2SF (r - (0 + r) / 1) in
  d = S754_nan \/ d = S754_zero false \/ d = S754_zero true.
Proof.
  cbv zeta. rewrite sub_spec, div_spec, add_spec.
  change (Prim2SF 1) with (S754_finite false 4503599627370496 (-52)).
  change (Prim2SF 0) with (S754_zero false).
  pose proof (Prim2SF_valid r) as Hv.
  destruct (Prim2SF r) as [s|s| |s m e].
  - destruct s; cbn; auto.
  - destruct s; cbn; auto.
  - cbn; auto.
  - change (SF64add (S754_zero false) (S754_finite s m e))
      with (S754_finite s m e).
    rewrite (SFdiv_one _ _ _ Hv), SFsub_diag. auto.
Qed.

(** The sign of the shaping penalty 0 + (-|p|): never positive, and zero
    exactly when the position is. *)
Lemma penalty_sign (p : float) :
  (0 <? 0 + - abs p) = false /\ (0 + - abs p =? 0) = (p =? 0).
Proof.
  rewrite ltb_spec, !eqb_spec, add_spec, opp_spec, abs_spec.
  change (Prim2SF 0) with (S754_zero false).
  destruct (Prim2SF p) as [s|s| |s m e]; try destruct s; cbn; auto.
Qed.


(** The same saturation, evaluated on floating point at eps = 0.2: the
    loss at ratio 3 is the loss at ratio 2, on either side of the sign of
    the advantage that makes the clamped surrogate the smaller. *)
Example clipping_saturates_on_floats :
  timestep_loss (decimal 2 1) 3 1 = timestep_loss (decimal 2 1) 2 1 /\
  timestep_loss (decimal 2 1) 0.25 (-1) = timestep_loss (decimal 2 1) 0.5 (-1).
Proof. split; reflexivity. Qed.

End FloatFacts.

Section FloatCollector.
Local Open Scope float_scope.
Variables Obs Action EnvState Rng Params OptState : Type.
Variable cart_position : Obs -> float.
Variable env_step :
  list Action -> EnvState -> StepResult (A:=float) Obs * EnvState.
Variable forward : Params -> Obs -> list float.
Variable sample : list float -> Rng -> Action * Rng.
Variable log_prob : list float -> Action -> float.

Local Abbreviation W := (World EnvState Rng Params OptState).
Local Abbreviation body :=
  (collect_step (OptState:=OptState)
     cart_position env_step forward sample log_prob).
Local Abbreviation loop :=
  (collect_loop (OptState:=OptState)
     cart_position env_step forward sample log_prob).

(** C2 (amended): in a loop body that finds environment [i] flagged done,
    the raw reward of [i] is replaced by zero and the shaping penalty is
    added afterwards, so the total of [i] grows by 0 + (-|position of its
    next observation|) whatever the raw reward was.  That amount is never
    positive, and it is zero exactly when the position is zero.  The flag
    of [i] is still set after the body, and stays set in every later
    state of the loop. *)
Theorem done_environment_accumulates_penalty
    c (w : W) c' w' i (a : float) o :
  body c w = (inr c', w') ->
  nth_error (all_dones c) i = Some true ->
  nth_error (all_rewards c) i = Some a ->
  nth_error (states c') i = Some o ->
  let shaped := 0 + - abs (cart_position o) in
  nth_error (all_rewards c') i = Some (a + shaped) /\
  (0 <? shaped) = false /\
  (shaped =? 0) = (cart_position o =? 0) /\
  nth_error (all_dones c') i = Some true /\
  forall fuel c'' w'',
    loop fuel c' w' = (inr c'', w'') ->
    nth_error (all_dones c'') i = Some true.
Proof.
  intros Hbody Hd Ha Ho shaped.
  pose proof Hd as Hstep.
  eapply collect_step_done in Hstep; [|exact Hbody].
  destruct Hstep as [Hd' Hacc].
  destruct (penalty_sign (cart_position o)) as [Hs Hz].
  split; [exact (Hacc a o Ha Ho)|].
  split; [exact Hs|]. split; [exact Hz|]. split; [exact Hd'|].
  intros fuel c'' w'' Hloop.
  eapply collect_loop_sticky; eassumption.
Qed.
End FloatCollector.

(** ** Runs of the stub *)

Section StubRuns.
Local Open Scope float_scope.

(** With four steps allowed the collector stops after two; with none it
    raises, for there is nothing to stack. *)
Example stub_collect_four :
  Stub.collect 4 0.5 Stub.world =
  (inr (Stub.batch, [0.5; 0]), Stub.world_second).
Proof. reflexivity. Qed.

Example stub_collect_zero :
  Stub.collect 0 0.5 Stub.world = (inl StackEmpty, Stub.world).
Proof. reflexivity. Qed.

(** The third loop body, seen from the first environment, which is done
    and rests at 0.25: its total goes from 0.5 to 0.5 + (0 - 0.25). *)
Lemma done_environment_witness :
  nth_error (all_rewards Stub.after_third) 0 = Some (0.5 + (0 + - abs 0.25)) /\
  (0 <? 0 + - abs 0.25) = false /\
  nth_error (all_dones Stub.after_third) 0 = Some true.
Proof.
  destruct (@done_environment_accumulates_penalty
              Stub.Obs bool nat nat unit unit
              Stub.cart_position Stub.env_step Stub.forward Stub.sample
              Stub.log_prob
              Stub.after_second Stub.world_second
              Stub.after_third Stub.world_third 0 0.5 [0.25; 0; 0; 0]
              eq_refl eq_refl eq_refl eq_refl)
    as (H1 & H2 & _ & H4 & _).
  repeat split; assumption.
Defined.

(** C2, as stated, fails: the second environment of the stub is done and
    rests at the origin, so the penalty it accumulates in the second loop
    body is zero and its total does not move. *)
Lemma done_penalty_can_be_zero :
  Stub.step Stub.after_first Stub.world_first =
    (inr Stub.after_second, Stub.world_second) /\
  nth_error (all_dones Stub.after_first) 1 = Some true /\
  nth_error (states Stub.after_second) 1 = Some [0; 0; 0; 0] /\
  (0 + - abs (Stub.cart_position [0; 0; 0; 0]) =? 0) = true /\
  nth_error (all_rewards Stub.after_second) 1 =
    nth_error (all_rewards Stub.after_first) 1.
Proof. repeat split; reflexivity. Qed.

(** Four steps allowed, two taken: the totals [0.5; 0] of two loop bodies
    are divided by 4. *)
Lemma normalized_rewards_witness :
  exists c : Rollout (A:=float) Stub.Obs bool,
    all_rewards c = [0.5; 0] /\
    all_true (all_dones c) = true /\
    dim1 (t_all_states Stub.batch) = 2%nat /\
    t_normalized_rewards Stub.batch =
      map (fun total => total / 4) (all_rewards c).
Proof.
  assert (H : Stub.collect 4 0.5 Stub.world =
              (inr (Stub.batch, [0.5; 0]), Stub.world_second))
    by reflexivity.
  unfold Stub.collect in H.
  apply normalized_rewards_divide_by_num_steps in H.
  destruct H as (c & Hrun & _ & _ & Hearly & Hn & _).
  exists c. repeat split.
  - injection Hrun as <-. reflexivity.
  - apply Hearly. apply Nat.ltb_lt. reflexivity.
  - exact Hn.
Defined.

(** The three tensors of that batch have the same time dimension. *)
Lemma record_sequences_witness :
  dim1 (t_all_log_probs Stub.batch) = dim1 (t_all_states Stub.batch) /\
  dim1 (t_all_actions Stub.batch) = dim1 (t_all_states Stub.batch).
Proof.
  assert (H : Stub.collect 4 0.5 Stub.world =
              (inr (Stub.batch, [0.5; 0]), Stub.world_second))
    by reflexivity.
  unfold Stub.collect in H.
  apply record_sequences_have_equal_length in H.
  exact (proj1 (proj2 H)).
Defined.

End StubRuns.


(** * Further properties of the program *)

(** ** The policy network *)

Section PolicyNetworkFacts.
Context {A : Type} {SA : Scalar A}.
Variable exp : A -> A.

Lemma linear_length in_features out_features (l : Linear) (x : list A) :
  linear_shape in_features out_features l ->
  length (linear l x) = out_features.
Proof.
  intros (Hw & Hb & _). unfold linear.
  rewrite map2_length, Hw, Hb. apply Nat.min_id.
Qed.

Lemma softmax_length (logits : list A) :
  length (softmax exp logits) = length logits.
Proof. unfold softmax. now rewrite !length_map. Qed.

(** X1: a network with the shapes the constructor allocates maps a state
    of [state_dim] components to one probability per action, through a
    hidden layer of 128 units. *)
Theorem policy_forward_length state_dim action_dim (net : PolicyNet)
    (state : list A) :
  policy_shape state_dim action_dim net ->
  length state = state_dim ->
  length (map relu (linear (fc1 net) state)) = 128 /\
  length (PolicyNet_forward exp net state) = action_dim.
Proof.
  intros [H1 H2] _. unfold PolicyNet_forward.
  rewrite softmax_length, length_map.
  rewrite (linear_length _ H1), (linear_length _ H2). auto.
Qed.
End PolicyNetworkFacts.

Section ExactSums.
Local Open Scope Q_scope.

Lemma Q_tsum_acc (l : list Q) : forall a,
  fold_left Qplus l a == a + fold_left Qplus l 0.
Proof.
  induction l as [|x l IH]; intros a; simpl.
  - ring.
  - rewrite (IH (a + x)), (IH (0 + x)). ring.
Qed.

Lemma Q_tsum_cons (x : Q) (l : list Q) : tsum (x :: l) == x + tsum l.
Proof.
  unfold tsum. cbn [fold_left add zero Q_scalar].
  rewrite Q_tsum_acc. ring.
Qed.

Lemma Q_tsum_map_div (t : Q) (l : list Q) :
  tsum (map (fun z => z / t) l) == tsum l / t.
Proof.
  induction l as [|x l IH].
  - unfold tsum. cbn. unfold Qdiv. ring.
  - cbn [map]. rewrite !Q_tsum_cons, IH. unfold Qdiv. ring.
Qed.

Lemma Q_tsum_positive (l : list Q) :
  Forall (fun z => 0 < z) l ->
  0 <= tsum l /\ (l <> [] -> 0 < tsum l) /\ Forall (fun z => z <= tsum l) l.
Proof.
  induction 1 as [|x l Hx Hl (IH0 & IHp & IHf)].
  - repeat split; [unfold tsum; cbn; lra | congruence | constructor].
  - pose proof (Q_tsum_cons x l) as Hc.
    repeat split; [lra | intros _; lra |].
    constructor; [lra|].
    eapply Forall_impl; [|exact IHf]. cbn beta. intros z Hz. lra.
Qed.

(** The softmax of a non-empty row under a positive exponential: positive
    entries, none above 1, that sum to 1. *)
Lemma Q_softmax_simplex (ex : Q -> Q) (logits : list Q) :
  (forall x, 0 < ex x) -> logits <> [] ->
  tsum (softmax ex logits) == 1 /\
  Forall (fun p => 0 < p /\ p <= 1) (softmax ex logits).
Proof.
  intros Hex Hne. unfold softmax. cbv zeta. cbn [div Q_scalar].
  set (e := map ex logits).
  assert (He : Forall (fun z => 0 < z) e).
  { apply Forall_forall. intros z Hz. apply in_map_iff in Hz as (x & <- & _).
    apply Hex. }
  assert (Hne' : e <> []) by (unfold e; destruct logits; [congruence|discriminate]).
  destruct (Q_tsum_positive He) as (_ & Hp & Hle). specialize (Hp Hne').
  split.
  - rewrite Q_tsum_map_div. field. lra.
  - apply Forall_forall. intros p Hp'.
    apply in_map_iff in Hp' as (z & <- & Hz).
    assert (0 < z) by (eapply Forall_forall in He; eassumption).
    assert (z <= tsum e) by (eapply Forall_forall in Hle; eassumption).
    split.
    + apply Qlt_shift_div_l; lra.
    + apply Qle_shift_div_r; lra.
Qed.

(** X2: in exact arithmetic, with any positive function for the
    exponential, the forward pass of a network with at least one action
    returns a probability vector: every entry lies in (0, 1] and the
    entries sum to 1. *)
Theorem policy_forward_simplex (ex : Q -> Q) state_dim action_dim
    (net : PolicyNet) (state : list Q) :
  (forall x, 0 < ex x) ->
  policy_shape state_dim action_dim net ->
  length state = state_dim ->
  (1 <= action_dim)%nat ->
  tsum (PolicyNet_forward ex net state) == 1 /\
  Forall (fun p => 0 < p /\ p <= 1) (PolicyNet_forward ex net state).
Proof.
  intros Hex [H1 H2] _ Ha. unfold PolicyNet_forward. cbv zeta.
  apply Q_softmax_simplex; [exact Hex|].
  intros Hnil. apply (f_equal (@length Q)) in Hnil.
  rewrite (linear_length _ H2) in Hnil. simpl in Hnil. lia.
Qed.
End ExactSums.

Section ExactExamples.
Local Open Scope Q_scope.

Lemma sample_net_shape : policy_shape 4 2 Sample.net.
Proof.
  repeat split; try reflexivity; cbn [Sample.net fc1 fc2 weight].
  - apply Forall_forall. intros row Hrow. apply repeat_spec in Hrow.
    now subst.
  - repeat constructor; apply repeat_length.
Defined.

(** The sample network on the state (1, 2, 3, 4). *)
Lemma policy_forward_length_witness :
  length (map relu (linear (fc1 Sample.net) [1; 2; 3; 4])) = 128%nat /\
  length (PolicyNet_forward Sample.pos_exp Sample.net [1; 2; 3; 4]) = 2%nat.
Proof.
  apply (@policy_forward_length Q Q_scalar Sample.pos_exp 4 2 Sample.net
           [1; 2; 3; 4]).
  - exact sample_net_shape.
  - reflexivity.
Defined.

Lemma policy_forward_simplex_witness :
  tsum (PolicyNet_forward Sample.pos_exp Sample.net [1; 2; 3; 4]) == 1.
Proof.
  refine (proj1 (@policy_forward_simplex Sample.pos_exp 4 2 Sample.net
                   [1; 2; 3; 4] _ _ _ _)).
  - intros x. unfold Sample.pos_exp. nra.
  - exact sample_net_shape.
  - reflexivity.
  - apply Nat.leb_le. reflexivity.
Defined.
End ExactExamples.

(** ** The advantage estimator in exact arithmetic *)

Section ExactAdvantage.
Local Open Scope Q_scope.
Context {SQ : Sqrt Q}.

Lemma Q_tsum_map_centered (m d : Q) (l : list Q) :
  tsum (map (fun r => (r - m) / d) l) ==
  (tsum l - inject_Z (Z.of_nat (length l)) * m) / d.
Proof.
  induction l as [|x l IH].
  - unfold tsum. cbn. unfold Qdiv. ring.
  - cbn [map length]. rewrite !Q_tsum_cons, IH.
    rewrite Nat2Z.inj_succ. unfold Z.succ. rewrite inject_Z_plus.
    unfold Qdiv. ring.
Qed.

Lemma Q_of_nat_positive (n : nat) : (1 <= n)%nat -> 0 < inject_Z (Z.of_nat n).
Proof.
  intros H. change 0 with (inject_Z 0). rewrite <- Zlt_Qlt. lia.
Qed.

(** X3: in exact arithmetic, for a batch of at least two episodes and a
    non-negative square root, every division of the estimator has a
    positive divisor (N for the mean, N - 1 for the variance, std + 1e-8
    for the advantages), and the advantages of the batch sum to zero. *)
Theorem advantages_sum_to_zero (rewards : list Q) :
  (2 <= length rewards)%nat ->
  (forall x, 0 <= sqrt x) ->
  0 < of_Z (Z.of_nat (length rewards)) /\
  0 < of_Z (Z.max 0 (Z.of_nat (length rewards) - 1)) /\
  0 < add (std rewards) lit_1e_8 /\
  tsum (calc_advantages_with_grpo rewards) == 0.
Proof.
  intros Hn Hs. cbn [of_Z add Q_scalar].
  assert (H1 : 0 < inject_Z (Z.of_nat (length rewards)))
    by (apply Q_of_nat_positive; lia).
  split; [exact H1|]. split.
  { change 0 with (inject_Z 0). rewrite <- Zlt_Qlt. lia. }
  split.
  { specialize (Hs (div (tsum (map (fun x => mul (sub x (mean rewards))
                                          (sub x (mean rewards))) rewards))
                        (of_Z (Z.max 0 (Z.of_nat (length rewards) - 1))))).
    unfold std. cbv zeta.
    assert (0 < lit_1e_8) by reflexivity. lra. }
  unfold calc_advantages_with_grpo. cbv zeta. cbn [div sub add Q_scalar].
  rewrite Q_tsum_map_centered. unfold mean. cbn [div of_Z Q_scalar].
  field_simplify_eq; [ring|].
  split; [lra|].
  intros H0.
  specialize (Hs (div (tsum (map (fun x => mul (sub x (mean rewards))
                                        (sub x (mean rewards))) rewards))
                      (of_Z (Z.max 0 (Z.of_nat (length rewards) - 1))))).
  unfold std in H0. cbv zeta in H0. unfold mean in *.
  cbn [div of_Z mul sub Q_scalar] in *.
  assert (0 < lit_1e_8) by reflexivity. lra.
Qed.
End ExactAdvantage.

Section ExactAdvantageExample.
Local Open Scope Q_scope.

(** The batch (1, 2, 4), with |x| standing for the square root. *)
Lemma advantages_sum_to_zero_witness :
  tsum (calc_advantages_with_grpo (SQ := Sample.abs_sqrt) [1; 2; 4]) == 0.
Proof.
  refine (proj2 (proj2 (proj2 (@advantages_sum_to_zero Sample.abs_sqrt
                                 [1; 2; 4] _ _)))).
  - apply Nat.leb_le. reflexivity.
  - intros x. apply Qabs_nonneg.
Defined.
End ExactAdvantageExample.

(** ** The clipped surrogate in exact arithmetic *)

Section ExactClipping.
Local Open Scope Q_scope.

Lemma Q_clamp_inside (x lo hi : Q) :
  lo <= x -> x <= hi -> clamp x lo hi = x.
Proof.
  intros Hl Hh. unfold clamp, minimum, maximum. cbn [isnan Q_scalar].
  rewrite (@Q_ltb_ge x lo) by lra. now rewrite (@Q_ltb_ge hi x).
Qed.

Lemma Q_clamp_bounds (x lo hi : Q) :
  lo <= hi -> lo <= clamp x lo hi /\ clamp x lo hi <= hi.
Proof.
  intros Hb.
  destruct (Qlt_le_dec x lo) as [H1|H1].
  - rewrite Q_clamp_below by lra. lra.
  - destruct (Qlt_le_dec hi x) as [H2|H2].
    + rewrite Q_clamp_above by lra. lra.
    + rewrite Q_clamp_inside by lra. lra.
Qed.

Lemma Q_minimum_le (a b : Q) : minimum a b <= a /\ minimum a b <= b.
Proof.
  unfold minimum. cbn [isnan Q_scalar].
  destruct (ltb b a) eqn:E;
    [apply Q_ltb_true in E | apply Q_ltb_false in E]; lra.
Qed.

(** X4: in exact arithmetic the loss of a timestep is pessimistic and
    bounded.  It is never below the loss -ratio * A of the unclipped
    surrogate; and however large the ratio, it is never below
    -(1 + eps) * A when the advantage is non-negative, nor below
    -(1 - eps) * A when it is non-positive: what one timestep can gain is
    capped. *)
Theorem clipped_loss_is_bounded (eps ratio advantage : Q) :
  0 <= eps ->
  - (ratio * advantage) <= timestep_loss eps ratio advantage /\
  (0 <= advantage ->
   - ((1 + eps) * advantage) <= timestep_loss eps ratio advantage) /\
  (advantage <= 0 ->
   - ((1 - eps) * advantage) <= timestep_loss eps ratio advantage).
Proof.
  intros Heps. unfold timestep_loss. cbv zeta.
  cbn [Q_scalar mul add sub neg one].
  set (c := clamp ratio (1 - eps) (1 + eps)).
  destruct (Q_clamp_bounds ratio (lo := 1 - eps) (hi := 1 + eps)) as [Hlo Hhi];
    [lra|]. fold c in Hlo, Hhi.
  destruct (Q_minimum_le (ratio * advantage) (c * advantage)) as [H1 H2].
  repeat split; intros; try lra; nra.
Qed.

Lemma clipped_loss_is_bounded_witness :
  - (5 * 1) <= timestep_loss (1 # 5) 5 1 /\
  - ((1 + (1 # 5)) * 1) <= timestep_loss (1 # 5) 5 1.
Proof.
  destruct (@clipped_loss_is_bounded (1 # 5) 5 1) as (H1 & H2 & _).
  - discriminate.
  - split; [exact H1|]. apply H2. discriminate.
Defined.

(** X5: in exact arithmetic, while the ratio stays inside
    [1 - eps, 1 + eps] the clipping is inactive: the loss of the timestep
    is -ratio * A, and at ratio 1 (the policy that collected the batch) it
    is -A. *)
Theorem unclipped_loss_inside_interval (eps ratio advantage : Q) :
  1 - eps <= ratio -> ratio <= 1 + eps ->
  timestep_loss eps ratio advantage == - (ratio * advantage) /\
  timestep_loss eps 1 advantage == - advantage.
Proof.
  intros Hlo Hhi. unfold timestep_loss. cbv zeta.
  cbn [Q_scalar mul add sub neg one].
  rewrite (Q_clamp_inside (x := ratio)) by lra.
  rewrite (Q_clamp_inside (x := 1)) by lra.
  unfold minimum. cbn [isnan Q_scalar].
  split.
  - destruct (ltb (ratio * advantage) (ratio * advantage)); reflexivity.
  - destruct (ltb (1 * advantage) (1 * advantage)); ring.
Qed.

Lemma unclipped_loss_witness :
  timestep_loss (1 # 5) (11 # 10) 3 == - ((11 # 10) * 3).
Proof.
  refine (proj1 (@unclipped_loss_inside_interval (1 # 5) (11 # 10) 3 _ _));
    discriminate.
Defined.
End ExactClipping.

(** ** More on the collector *)

Section CollectorFacts.
Context {A : Type} {SA : Scalar A}.
Variables Obs Action : Type.
Variables EnvState Rng Params OptState : Type.
Variable cart_position : Obs -> A.
Variable env_num : EnvState -> nat.
Variable env_reset : EnvState -> list Obs * EnvState.
Variable env_step : list Action -> EnvState -> StepResult (A:=A) Obs * EnvState.
Variable forward : Params -> Obs -> list A.
Variable sample : list A -> Rng -> Action * Rng.
Variable log_prob : list A -> Action -> A.

Local Abbreviation W := (World EnvState Rng Params OptState).
Local Abbreviation body :=
  (collect_step (OptState:=OptState)
     cart_position env_step forward sample log_prob).
Local Abbreviation loop :=
  (collect_loop (OptState:=OptState)
     cart_position env_step forward sample log_prob).
Local Abbreviation run :=
  (run_steps (OptState:=OptState)
     cart_position env_step forward sample log_prob).
Local Abbreviation start :=
  (collector_start (Rng:=Rng) (Params:=Params) (OptState:=OptState)
     Action env_num env_reset).
Local Abbreviation collect :=
  (collect_trajectory_vectorized (OptState:=OptState)
     cart_position env_num env_reset env_step forward sample log_prob).

(** *** One loop body, environment by environment *)

Lemma mask_set_true_nth target mask d i f m :
  mask_set_true target mask = inr d ->
  nth_error target i = Some f -> nth_error mask i = Some m ->
  nth_error d i = Some (f || m).
Proof.
  unfold mask_set_true.
  destruct (length mask =? length target); [|discriminate].
  intros H Hf Hm. injection H as <-.
  now rewrite nth_error_map2, Hf, Hm.
Qed.

Lemma mask_fill_nth_any (target : list A) mask v filled i x (m : bool) :
  mask_fill target mask v = inr filled ->
  nth_error target i = Some x -> nth_error mask i = Some m ->
  nth_error filled i = Some (if m then v else x).
Proof.
  unfold mask_fill.
  destruct (length mask =? length target); [|discriminate].
  intros H Hx Hm. injection H as <-.
  now rewrite nth_error_map2, Hx, Hm.
Qed.


(** *** Shapes that every run keeps *)

Lemma broadcast_to_length n (xs ys : list A) :
  broadcast_to n xs = inr ys -> length ys = n.
Proof.
  unfold broadcast_to. destruct (length xs =? n) eqn:E.
  - apply Nat.eqb_eq in E. intros H. now injection H as <-.
  - destruct xs as [|x [|y xs]]; try discriminate.
    intros H. injection H as <-. apply repeat_length.
Qed.

Lemma iadd_length (target other total : list A) :
  iadd target other = inr total -> length total = length target.
Proof.
  unfold iadd.
  destruct (broadcast_to (length target) other) as [e|o] eqn:E; [discriminate|].
  intros H. injection H as <-. apply broadcast_to_length in E.
  rewrite map2_length, E. apply Nat.min_id.
Qed.

Lemma mask_set_true_length target mask d :
  mask_set_true target mask = inr d -> length d = length target.
Proof.
  unfold mask_set_true.
  destruct (length mask =? length target) eqn:E; [|discriminate].
  apply Nat.eqb_eq in E. intros H. injection H as <-.
  rewrite map2_length, E. apply Nat.min_id.
Qed.

Lemma collect_step_keeps_lengths c (w : W) c' w' :
  body c w = (inr c', w') ->
  length (all_rewards c') = length (all_rewards c) /\
  length (all_dones c') = length (all_dones c).
Proof.
  intros H.
  apply collect_step_inr in H
    as (actions & r & d' & r0 & r1 & tot & _ & _ & Hm & _ & _ & H2 & ->).
  cbn [all_rewards all_dones].
  split; [eapply iadd_length | eapply mask_set_true_length]; eassumption.
Qed.

Lemma collect_loop_keeps_lengths fuel : forall c (w : W) c' w',
  loop fuel c w = (inr c', w') ->
  length (all_rewards c') = length (all_rewards c) /\
  length (all_dones c') = length (all_dones c).
Proof.
  induction fuel as [|fuel IH]; intros c w c' w' H; simpl in H.
  - unfold ret in H. injection H as <- <-. auto.
  - apply bind_inr in H as (c1 & w1 & H1 & H).
    apply collect_step_keeps_lengths in H1 as [Hr Hd].
    destruct (all_true (all_dones c1)).
    + unfold ret in H. injection H as <- <-. auto.
    + apply IH in H as [Hr' Hd']. split; congruence.
Qed.

Lemma start_shape (w : W) :
  length (all_rewards (fst (start w))) = env_num (w_env w) /\
  length (all_dones (fst (start w))) = env_num (w_env w) /\
  states (fst (start w)) = fst (env_reset (w_env w)) /\
  all_states (fst (start w)) = [] /\
  all_actions (fst (start w)) = [] /\
  all_log_probs (fst (start w)) = [] /\
  w_policy (snd (start w)) = w_policy w.
Proof.
  unfold collector_start. destruct (env_reset (w_env w)) as [o e].
  cbn. rewrite !repeat_length. auto 10.
Qed.


(** *** No step allowed *)

(** X13: with [num_steps <= 0] the collector resets the environment, takes
    no step, and always raises, since there is nothing to stack; the
    generator and the policy are as they were. *)
Theorem collector_without_steps_raises num_steps gamma device (w : W) :
  (num_steps <= 0)%Z ->
  collect num_steps gamma device w = (inl StackEmpty, snd (start w)) /\
  w_rng (snd (start w)) = w_rng w /\
  w_env (snd (start w)) = snd (env_reset (w_env w)).
Proof.
  intros HT. rewrite collect_unfold.
  replace (Z.to_nat num_steps) with 0 by lia. cbn [collect_loop ret].
  destruct (start_shape w) as (_ & _ & _ & Hs & _). rewrite Hs. cbn.
  unfold collector_start. destruct (env_reset (w_env w)); cbn. auto.
Qed.

(** *** A well-behaved environment *)

Lemma stack_rectangular X (rows : list (list X)) n :
  rows <> [] -> Forall (fun r => length r = n) rows ->
  stack rows = inr (mkTensor2 (length rows) n rows).
Proof.
  destruct rows as [|r rs]; [congruence|]. intros _ H.
  inversion H as [|? ? Hr Hrs]; subst. unfold stack.
  replace (same_length (length r) rs) with true; [reflexivity|].
  symmetry. now apply same_length_Forall.
Qed.

Lemma Forall_snoc X (P : X -> Prop) l x :
  Forall P l -> P x -> Forall P (l ++ [x]).
Proof. intros Hl Hx. apply Forall_app. auto. Qed.

(** Under the contract, a loop body that starts from well-shaped variables
    does not raise and leaves them well-shaped. *)
Lemma collect_step_total n c (w : W) :
  env_shape env_reset env_step n -> rollout_shape n c ->
  exists c' w', body c w = (inr c', w') /\ rollout_shape n c'.
Proof.
  intros [_ Hstep] (Hd & Hr & Hs & Fs & Fa & Fl).
  unfold collect_step, bind, policy_net, dist_sample, envs_step, lift, ret.
  pose proof (sample_rows_length sample
                (map (forward (w_policy w)) (states c)) (w_rng w)) as Hlen.
  destruct (sample_rows sample _ (w_rng w)) as [acts g]. cbn [fst] in Hlen.
  rewrite length_map, Hs in Hlen. cbn [w_env w_rng w_policy w_optim].
  specialize (Hstep acts (w_env w)).
  destruct (env_step acts (w_env w)) as [r e]. cbn [fst] in Hstep.
  destruct Hstep as (Hn & Hrw & Hdn).
  unfold mask_set_true. rewrite Hdn, Hd, Nat.eqb_refl.
  unfold mask_fill. rewrite map2_length, Hd, Hdn, Hrw, Nat.min_id, Nat.eqb_refl.
  unfold iadd, broadcast_to, penalty.
  rewrite !map2_length, !length_map, Hrw, Hn, Hd, Hdn, !Nat.min_id, Nat.eqb_refl.
  rewrite !map2_length, !length_map, Hrw, Hn, Hd, Hdn, !Nat.min_id.
  rewrite Hr, Nat.eqb_refl.
  eexists _, _. split; [reflexivity|].
  unfold rollout_shape. cbn [all_dones all_rewards states all_states
                               all_actions all_log_probs].
  rewrite !map2_length, !length_map, Hrw, Hn, Hd, Hdn, Hr, !Nat.min_id.
  repeat split; auto; apply Forall_snoc; auto.
  rewrite map2_length, length_map, Hs, Hlen. apply Nat.min_id.
Qed.

Lemma collect_loop_total n fuel : forall c (w : W),
  env_shape env_reset env_step n -> rollout_shape n c ->
  exists c' w', loop fuel c w = (inr c', w') /\ rollout_shape n c'.
Proof.
  induction fuel as [|fuel IH]; intros c w He Hc; cbn [collect_loop].
  - exists c, w. auto.
  - destruct (collect_step_total w He Hc) as (c1 & w1 & H1 & Hc1).
    unfold bind. rewrite H1.
    destruct (all_true (all_dones c1)); [exists c1, w1; auto|].
    apply IH; assumption.
Qed.

Lemma collect_total num_steps gamma device (w : W) n :
  env_shape env_reset env_step n ->
  env_num (w_env w) = n ->
  (1 <= num_steps)%Z ->
  exists traj er w',
    collect num_steps gamma device w = (inr (traj, er), w') /\
    dim0 (t_all_states traj) = n /\
    dim0 (t_all_log_probs traj) = n /\
    dim0 (t_all_actions traj) = n /\
    length (t_normalized_rewards traj) = n /\
    length er = n.
Proof.
  intros He Hn HT.
  destruct (start_shape w) as (H0r & H0d & H0s & H0a & H0c & H0l & _).
  assert (Hc0 : rollout_shape n (fst (start w))).
  { unfold rollout_shape. rewrite H0r, H0d, H0s, H0a, H0c, H0l, Hn.
    destruct He as [Hreset _]. repeat split; auto. }
  destruct (collect_loop_total (Z.to_nat num_steps) (snd (start w)) He Hc0)
    as (c & w1 & Hloop & (Hd & Hr & Hs & Fs & Fa & Fl)).
  pose proof Hloop as Hrun. rewrite collect_loop_is_run in Hrun.
  apply run_steps_lengths in Hrun as (L1 & L2 & L3).
  rewrite H0a in L1. rewrite H0c in L2. rewrite H0l in L3. cbn [length] in *.
  destruct (steps_taken_bounds cart_position env_step forward sample log_prob
              (fst (start w)) (snd (start w)) (Z.to_nat num_steps))
    as [_ Hpos].
  specialize (Hpos ltac:(lia)).
  assert (N1 : all_states c <> []) by (intros E; rewrite E in L1; simpl in L1; lia).
  assert (N2 : all_actions c <> []) by (intros E; rewrite E in L2; simpl in L2; lia).
  assert (N3 : all_log_probs c <> []) by (intros E; rewrite E in L3; simpl in L3; lia).
  rewrite collect_unfold, Hloop. cbv zeta.
  rewrite (stack_rectangular N1 Fs), (stack_rectangular N3 Fl),
    (stack_rectangular N2 Fa).
  eexists _, _, _. split; [reflexivity|].
  cbn. rewrite !length_map. auto.
Qed.


(** *** The layout of the batch *)

Lemma entry_transpose X n (rows : list (list X)) i t :
  Forall (fun r => length r = n) rows ->
  entry (transpose n rows) i t = entry rows t i.
Proof.
  intros H. revert t. induction H as [|r rows Hr Hrows IH]; intros t.
  - cbn [transpose fold_right]. unfold entry.
    destruct (nth_error (repeat [] n) i) as [row|] eqn:E.
    + apply nth_error_In, repeat_spec in E. subst.
      destruct t; reflexivity.
    + destruct t; reflexivity.
  - cbn [transpose fold_right]. fold (transpose n rows).
    destruct (transpose_shape Hrows) as [Hlen _].
    unfold entry at 1. unfold zip_cons. rewrite nth_error_map2.
    destruct (nth_error r i) as [x|] eqn:Ex.
    + destruct (nth_error (transpose n rows) i) as [col|] eqn:Ec.
      * destruct t as [|t]; cbn [nth_error entry].
        -- unfold entry. cbn. now rewrite Ex.
        -- specialize (IH t). unfold entry in IH at 1. rewrite Ec in IH.
           unfold entry. cbn [nth_error]. exact IH.
      * apply nth_error_None in Ec.
        assert (i < length r) by (apply nth_error_Some; congruence). lia.
    + apply nth_error_None in Ex.
      destruct t as [|t]; unfold entry; cbn [nth_error].
      * apply nth_error_None in Ex. now rewrite Ex.
      * specialize (IH t). unfold entry in IH.
        assert (Ec : nth_error (transpose n rows) i = None)
          by (apply nth_error_None; lia).
        rewrite Ec in IH. exact IH.
Qed.

Lemma entry_snoc_old X (rows : list (list X)) row t i :
  t < length rows -> entry (rows ++ [row]) t i = entry rows t i.
Proof. intros H. unfold entry. now rewrite nth_error_app1. Qed.

Lemma entry_snoc_new X (rows : list (list X)) row i :
  entry (rows ++ [row]) (length rows) i = nth_error row i.
Proof.
  unfold entry. rewrite nth_error_app2, Nat.sub_diag by lia. reflexivity.
Qed.

Lemma entry_in_range X (rows : list (list X)) t i x :
  entry rows t i = Some x -> t < length rows.
Proof.
  unfold entry. destruct (nth_error rows t) eqn:E; [|discriminate].
  intros _. apply nth_error_Some. congruence.
Qed.

(** The three lists of the loop are aligned under the policy [theta]. *)
Lemma collect_step_consistent theta c (w : W) c' w' :
  body c w = (inr c', w') ->
  w_policy w = theta ->
  length (all_actions c) = length (all_states c) ->
  length (all_log_probs c) = length (all_states c) ->
  (forall t i s a,
      entry (all_states c) t i = Some s ->
      entry (all_actions c) t i = Some a ->
      entry (all_log_probs c) t i = Some (log_prob (forward theta s) a)) ->
  w_policy w' = theta /\
  length (all_actions c') = length (all_states c') /\
  length (all_log_probs c') = length (all_states c') /\
  (forall t i s a,
      entry (all_states c') t i = Some s ->
      entry (all_actions c') t i = Some a ->
      entry (all_log_probs c') t i = Some (log_prob (forward theta s) a)).
Proof.
  intros H Hth La Ll Hinv.
  assert (Hk : keeps_policy (body c))
    by (apply keeps_collect_step; assumption).
  specialize (Hk w) as [Hk _]. rewrite H in Hk. cbn [snd] in Hk.
  apply collect_step_inr in H
    as (actions & r & d' & r0 & r1 & tot & Hlen & _ & _ & _ & _ & _ & ->).
  cbn [all_states all_actions all_log_probs]. rewrite !length_app. cbn [length].
  split; [congruence|]. split; [lia|]. split; [lia|].
  intros t i s a Hs Ha.
  pose proof (entry_in_range _ _ _ Hs) as Ht.
  rewrite length_app in Ht. cbn [length] in Ht.
  destruct (Nat.eq_dec t (length (all_states c))) as [->|Hne].
  - rewrite entry_snoc_new in Hs.
    rewrite <- La, entry_snoc_new in Ha.
    rewrite <- Ll, entry_snoc_new.
    rewrite nth_error_map2, nth_error_map, Hs, Ha. cbn. now rewrite Hth.
  - rewrite entry_snoc_old in Hs by lia.
    rewrite entry_snoc_old in Ha by lia.
    rewrite entry_snoc_old by lia. now apply Hinv.
Qed.

Lemma collect_loop_consistent theta fuel : forall c (w : W) c' w',
  loop fuel c w = (inr c', w') ->
  w_policy w = theta ->
  length (all_actions c) = length (all_states c) ->
  length (all_log_probs c) = length (all_states c) ->
  (forall t i s a,
      entry (all_states c) t i = Some s ->
      entry (all_actions c) t i = Some a ->
      entry (all_log_probs c) t i = Some (log_prob (forward theta s) a)) ->
  forall t i s a,
    entry (all_states c') t i = Some s ->
    entry (all_actions c') t i = Some a ->
    entry (all_log_probs c') t i = Some (log_prob (forward theta s) a).
Proof.
  induction fuel as [|fuel IH]; intros c w c' w' H Hth La Ll Hinv;
    cbn [collect_loop] in H.
  - unfold ret in H. injection H as <- <-. exact Hinv.
  - apply bind_inr in H as (c1 & w1 & H1 & H).
    pose proof H1 as Hstep.
    eapply collect_step_consistent in Hstep; [|eassumption..].
    destruct Hstep as (Hth1 & La1 & Ll1 & Hinv1).
    destruct (all_true (all_dones c1)).
    + unfold ret in H. injection H as <- <-. exact Hinv1.
    + eapply IH; eassumption.
Qed.

(** X14: the batch is laid out episode by episode and its three tensors
    are aligned.  Entry [i][t] of each returned tensor is what the loop
    recorded for environment [i] at step [t]; and wherever a state [s] and
    an action [a] sit at [i][t], the log-probability at [i][t] is that of
    [a] under the distribution the policy, with the parameters it had when
    the collector was called, gives for [s]. *)
Theorem batch_is_aligned num_steps gamma device (w : W) traj er w' :
  collect num_steps gamma device w = (inr (traj, er), w') ->
  (exists c,
      loop (Z.to_nat num_steps) (fst (start w)) (snd (start w)) = (inr c, w') /\
      forall i t,
        entry (data (t_all_states traj)) i t = entry (all_states c) t i /\
        entry (data (t_all_actions traj)) i t = entry (all_actions c) t i /\
        entry (data (t_all_log_probs traj)) i t = entry (all_log_probs c) t i) /\
  forall i t s a,
    entry (data (t_all_states traj)) i t = Some s ->
    entry (data (t_all_actions traj)) i t = Some a ->
    entry (data (t_all_log_probs traj)) i t =
      Some (log_prob (forward (w_policy w) s) a).
Proof.
  intros H.
  apply collect_inr in H as (c & ts & tl & ta & Hloop & Hs & Hl & Ha & -> & _).
  cbn [t_all_states t_all_actions t_all_log_probs permute_1_0 data].
  apply stack_inr in Hs as (_ & Hds & _ & Hfs & _).
  apply stack_inr in Hl as (_ & Hdl & _ & Hfl & _).
  apply stack_inr in Ha as (_ & Hda & _ & Hfa & _).
  rewrite Hds, Hdl, Hda.
  assert (Hent : forall i t,
             entry (transpose (dim1 ts) (all_states c)) i t
             = entry (all_states c) t i /\
             entry (transpose (dim1 ta) (all_actions c)) i t
             = entry (all_actions c) t i /\
             entry (transpose (dim1 tl) (all_log_probs c)) i t
             = entry (all_log_probs c) t i).
  { intros i t. repeat split; apply entry_transpose; assumption. }
  split; [exists c; split; [exact Hloop | exact Hent]|].
  intros i t s a Es Ea.
  destruct (Hent i t) as (E1 & E2 & E3). rewrite E1 in Es. rewrite E2 in Ea.
  rewrite E3.
  destruct (start_shape w) as (_ & _ & _ & H0a & H0c & H0l & Hth).
  eapply collect_loop_consistent with (theta := w_policy w); try eassumption.
  - now rewrite H0a, H0c.
  - now rewrite H0a, H0l.
  - intros t0 i0 s0 a0 E0. rewrite H0a in E0. unfold entry in E0.
    destruct t0; discriminate.
Qed.
End CollectorFacts.

(** ** Not-a-number in the estimator and in the loss *)

Section FloatNaN.
Local Open Scope float_scope.

Lemma is_nan_eq (x : float) : is_nan x = true -> x = nan.
Proof.
  intros H. apply Prim2SF_inj. unfold Prim2SF at 1. now rewrite H.
Qed.

Lemma add_nan_r (x : float) : x + nan = nan.
Proof.
  apply Prim2SF_inj. rewrite add_spec.
  change (Prim2SF nan) with S754_nan. now destruct (Prim2SF x).
Qed.

Lemma add_nan_l (x : float) : nan + x = nan.
Proof.
  apply Prim2SF_inj. rewrite add_spec.
  change (Prim2SF nan) with S754_nan. reflexivity.
Qed.

Lemma sub_nan_r (x : float) : x - nan = nan.
Proof.
  apply Prim2SF_inj. rewrite sub_spec.
  change (Prim2SF nan) with S754_nan. now destruct (Prim2SF x).
Qed.

Lemma mul_nan_r (x : float) : x * nan = nan.
Proof.
  apply Prim2SF_inj. rewrite mul_spec.
  change (Prim2SF nan) with S754_nan. now destruct (Prim2SF x).
Qed.

Lemma mul_nan_l (x : float) : nan * x = nan.
Proof.
  apply Prim2SF_inj. rewrite mul_spec.
  change (Prim2SF nan) with S754_nan. reflexivity.
Qed.

Lemma div_nan_l (x : float) : nan / x = nan.
Proof.
  apply Prim2SF_inj. rewrite div_spec.
  change (Prim2SF nan) with S754_nan. reflexivity.
Qed.

Lemma fold_add_from_nan (l : list float) : fold_left PrimFloat.add l nan = nan.
Proof.
  induction l as [|x l IH]; [reflexivity|]. cbn [fold_left].
  now rewrite add_nan_l.
Qed.

Lemma fold_add_with_nan (l : list float) : forall acc,
  In nan l -> fold_left PrimFloat.add l acc = nan.
Proof.
  induction l as [|x l IH]; intros acc H; [destruct H|].
  cbn [fold_left]. destruct H as [->|H].
  - rewrite add_nan_r. apply fold_add_from_nan.
  - now apply IH.
Qed.

(** The mean of a tensor that holds a NaN, or that is empty, is NaN. *)
Lemma mean_nan (l : list float) : In nan l \/ l = [] -> mean l = nan.
Proof.
  unfold mean, tsum. cbn [add div zero float_scalar].
  intros [H| ->].
  - rewrite fold_add_with_nan by assumption. apply div_nan_l.
  - reflexivity.
Qed.

(** X6: one NaN among the rewards of a batch makes every advantage of the
    batch NaN: the mean is NaN, and so is every difference to it. *)
Theorem nan_reward_poisons_batch (rewards : list float) :
  (exists r, In r rewards /\ is_nan r = true) ->
  calc_advantages_with_grpo rewards = map (fun _ => nan) rewards.
Proof.
  intros (r & Hin & Hnan). apply is_nan_eq in Hnan. subst r.
  unfold calc_advantages_with_grpo. cbv zeta.
  rewrite (@mean_nan rewards) by auto.
  apply map_ext. intros x. cbn [sub div float_scalar].
  rewrite sub_nan_r. apply div_nan_l.
Qed.

Lemma nan_reward_poisons_batch_witness :
  calc_advantages_with_grpo [1; nan; 3] = [nan; nan; nan].
Proof.
  apply (@nan_reward_poisons_batch [1; nan; 3]).
  exists nan. split; [right; left; reflexivity | reflexivity].
Defined.

Lemma timestep_loss_nan_advantage (eps ratio : float) :
  timestep_loss eps ratio nan = nan.
Proof.
  unfold timestep_loss. cbv zeta. cbn [mul neg float_scalar].
  rewrite !mul_nan_r. reflexivity.
Qed.

Lemma timestep_loss_nan_ratio (eps advantage : float) :
  timestep_loss eps nan advantage = nan.
Proof.
  unfold timestep_loss. cbv zeta. cbn [mul neg float_scalar].
  rewrite mul_nan_l. reflexivity.
Qed.
End FloatNaN.

(** ** More on the update *)

Section UpdateFacts.
Context {A : Type} {SA : Scalar A} {SQ : Sqrt A}.
Variables Obs Action : Type.
Variables EnvState Rng Params OptState Grad : Type.
Variable forward : Params -> Obs -> list A.
Variable gather : list A -> Action -> A.
Variables exp log : A -> A.
Variable backward : (Params -> A) -> Params -> Grad.
Variable optim_step : OptState -> Params -> Grad -> OptState * Params.

Local Abbreviation W := (World EnvState Rng Params OptState).
Local Abbreviation update :=
  (grpo_update (EnvState:=EnvState) (Rng:=Rng)
     forward gather exp log backward optim_step).
Local Abbreviation update_iter :=
  (update_loop (EnvState:=EnvState) (Rng:=Rng)
     forward gather exp log backward optim_step).
Local Abbreviation loss_of := (batch_loss forward gather exp log).
Local Abbreviation steps := (optimizer_steps backward optim_step).

(** The loss the inner loop remembers last is that of its last iteration,
    computed before the optimizer step of that iteration. *)
Lemma update_loop_result n : forall trajectories advantages eps last (w : W),
  dim0 (t_all_states trajectories) <> 0 ->
  fst (update_iter n trajectories advantages eps last w) =
  inr (match n with
       | O => last
       | S k =>
           Some (loss_of trajectories advantages eps
                   (snd (steps (loss_of trajectories advantages eps) k
                           (w_optim w, w_policy w))))
       end).
Proof.
  induction n as [|n IH]; intros trajectories advantages eps last w Hd.
  - reflexivity.
  - cbn [update_loop]. apply Nat.eqb_neq in Hd as Hd'. rewrite Hd'.
    unfold bind, optimizer_step.
    destruct (optim_step (w_optim w) (w_policy w) _) as [o p] eqn:E.
    rewrite IH by assumption. cbn [w_optim w_policy].
    destruct n as [|k]; [reflexivity|].
    unfold optimizer_steps. rewrite (Nat.iter_succ_r k). cbn [fst snd].
    now rewrite E.
Qed.

Lemma grpo_update_returns trajectories k eps (w : W) :
  dim0 (t_all_states trajectories) <> 0 ->
  exists loss w', update trajectories (S k) eps w = (inr loss, w').
Proof.
  intros Hd. unfold grpo_update.
  set (adv := calc_advantages_with_grpo _).
  pose proof (update_loop_result (S k) trajectories adv eps None w Hd) as H.
  unfold bind.
  destruct (update_iter (S k) trajectories adv eps None w) as [[e|last] w1];
    cbn [fst] in H; [discriminate|].
  injection H as ->. eexists _, _. reflexivity.
Qed.

End UpdateFacts.

Section FloatUpdate.
Local Open Scope float_scope.
Variables Obs Action : Type.
Variables EnvState Rng Params OptState Grad : Type.
Variable forward : Params -> Obs -> list float.
Variable gather : list float -> Action -> float.
Variables exp log : float -> float.
Variable backward : (Params -> float) -> Params -> Grad.
Variable optim_step : OptState -> Params -> Grad -> OptState * Params.

Local Abbreviation W := (World EnvState Rng Params OptState).
Local Abbreviation update :=
  (grpo_update (EnvState:=EnvState) (Rng:=Rng)
     forward gather exp log backward optim_step).
Local Abbreviation loss_of := (batch_loss forward gather exp log).

Lemma trajectory_loss_nan net eps ep_states log_probs chosen_actions :
  trajectory_loss forward gather exp log net eps ep_states log_probs
    chosen_actions nan = nan.
Proof.
  unfold trajectory_loss. cbv zeta. apply mean_nan.
  destruct (map2 _ (map2 _ ep_states chosen_actions) log_probs)
    as [|r ratios]; [right; reflexivity|].
  left. cbn [map]. left. apply timestep_loss_nan_advantage.
Qed.

(** X7: a NaN goes through the clipped surrogate.  The loss of a timestep
    is NaN when its ratio or its advantage is NaN, and the loss of an
    episode whose advantage is NaN is NaN, whatever its states, actions and
    log-probabilities, and whatever the parameters. *)
Theorem nan_goes_through_the_loss :
  (forall eps ratio advantage,
      is_nan ratio = true \/ is_nan advantage = true ->
      timestep_loss eps ratio advantage = nan) /\
  (forall net eps ep_states log_probs chosen_actions advantage,
      is_nan advantage = true ->
      trajectory_loss forward gather exp log net eps ep_states log_probs
        chosen_actions advantage = nan).
Proof.
  split.
  - intros eps ratio advantage [H|H]; apply is_nan_eq in H; subst.
    + apply timestep_loss_nan_ratio.
    + apply timestep_loss_nan_advantage.
  - intros net eps ep_states log_probs chosen_actions advantage H.
    apply is_nan_eq in H. subst. apply trajectory_loss_nan.
Qed.

(** The advantage of a batch of one, in the form the update needs it. *)
Lemma advantage_of_one (r : float) : calc_advantages_with_grpo [r] = [nan].
Proof.
  unfold calc_advantages_with_grpo, std, mean, tsum, lit_1e_8, decimal.
  cbn [map fold_left length zero add sub mul div sqrt float_scalar
         float_sqrt].
  change (of_Z (Z.of_nat 1)) with 1.
  change (of_Z (Z.max 0 (Z.of_nat 1 - 1))) with 0.
  f_equal. apply Prim2SF_inj.
  rewrite div_spec, add_spec, sqrt_spec, div_spec, add_spec, mul_spec.
  change (Prim2SF nan) with S754_nan.
  change (Prim2SF 0) with (S754_zero false).
  destruct (single_numerator r) as [H|[H|H]]; cbv zeta in H; rewrite H;
    reflexivity.
Qed.

(** X8: on a batch of one episode the update cannot learn: the advantage
    of the episode is NaN, so the batch loss is NaN at every parameter, and
    a call with at least one inner iteration returns NaN. *)
Theorem single_episode_update_returns_nan
    (s : list Obs) (l : list float) (a : list Action) (r : float)
    (steps_recorded n : nat) (eps : float) (w : W) :
  let trajectories :=
    mkTrajectories (mkTensor2 1 steps_recorded [s])
                   (mkTensor2 1 steps_recorded [l])
                   (mkTensor2 1 steps_recorded [a]) [r] in
  (forall net,
      loss_of trajectories
        (calc_advantages_with_grpo (t_normalized_rewards trajectories))
        eps net = nan) /\
  fst (update trajectories (S n) eps w) = inr nan.
Proof.
  cbv zeta. cbn [t_normalized_rewards]. rewrite advantage_of_one.
  set (traj := mkTrajectories _ _ _ _).
  assert (Hloss : forall net, loss_of traj [nan] eps net = nan).
  { intros net. unfold batch_loss, traj. cbv zeta.
    cbn [t_all_states t_all_log_probs t_all_actions data dim0 combine
           fold_left].
    rewrite trajectory_loss_nan. reflexivity. }
  split; [exact Hloss|].
  unfold grpo_update. cbn [t_normalized_rewards traj].
  rewrite advantage_of_one. fold traj.
  assert (Hd : dim0 (t_all_states traj) <> 0%nat) by discriminate.
  pose proof (update_loop_result forward gather exp log backward optim_step
                (S n) traj [nan] eps None w Hd) as H.
  unfold bind.
  destruct (update_loop _ _ _ _ _ _ (S n) traj [nan] eps None w)
    as [[e|last] w1]; cbn [fst] in H; [discriminate|].
  rewrite Hloss in H. injection H as ->. reflexivity.
Qed.
End FloatUpdate.

(** ** The collector in exact arithmetic *)

Section ExactCollector.
Local Open Scope Q_scope.
Variables Obs Action : Type.
Variables EnvState Rng Params OptState : Type.
Variable cart_position : Obs -> Q.
Variable env_num : EnvState -> nat.
Variable env_reset : EnvState -> list Obs * EnvState.
Variable env_step : list Action -> EnvState -> StepResult (A:=Q) Obs * EnvState.
Variable forward : Params -> Obs -> list Q.
Variable sample : list Q -> Rng -> Action * Rng.
Variable log_prob : list Q -> Action -> Q.

Local Abbreviation W := (World EnvState Rng Params OptState).
Local Abbreviation loop :=
  (collect_loop (OptState:=OptState)
     cart_position env_step forward sample log_prob).
Local Abbreviation start :=
  (collector_start (Rng:=Rng) (Params:=Params) (OptState:=OptState)
     Action env_num env_reset).
Local Abbreviation collect :=
  (collect_trajectory_vectorized (OptState:=OptState)
     cart_position env_num env_reset env_step forward sample log_prob).

Lemma Q_divide_then_multiply (t : Z) (totals : list Q) :
  (1 <= t)%Z ->
  Forall2 Qeq
    (map (fun x => mul x (of_Z t)) (map (fun x => div x (of_Z t)) totals))
    totals.
Proof.
  intros Ht. induction totals as [|a totals IH]; cbn [map]; constructor.
  - cbn [mul div of_Z Q_scalar]. field.
    change 0 with (inject_Z 0). rewrite inject_Z_injective. lia.
  - exact IH.
Qed.

(** X15: in exact arithmetic the episode rewards a collector returns are
    the accumulated totals themselves: dividing by [num_steps] and
    multiplying back loses nothing, since a collector that returns was
    given [num_steps >= 1]. *)
Theorem episode_rewards_are_the_totals
    num_steps gamma device (w : W) traj er w' :
  collect num_steps gamma device w = (inr (traj, er), w') ->
  (1 <= num_steps)%Z /\
  exists c,
    loop (Z.to_nat num_steps) (fst (start w)) (snd (start w)) = (inr c, w') /\
    Forall2 Qeq er (all_rewards c).
Proof.
  intros H.
  apply collect_inr in H as (c & ts & tl & ta & Hloop & Hs & _ & _ & _ & ->).
  assert (HT : (1 <= num_steps)%Z).
  { apply stack_inr in Hs as (Hne & _).
    destruct (Z_le_gt_dec 1 num_steps) as [Hle|Hgt]; [exact Hle|].
    exfalso. apply Hne.
    replace (Z.to_nat num_steps) with 0%nat in Hloop by lia.
    cbn [collect_loop ret] in Hloop. injection Hloop as <- _.
    unfold collector_start. now destruct (env_reset (w_env w)). }
  split; [exact HT|]. exists c. split; [exact Hloop|].
  now apply Q_divide_then_multiply.
Qed.
End ExactCollector.

(** ** More runs of the stubs *)

Section MoreStubRuns.
Local Open Scope float_scope.

Lemma stub_env_shape : env_shape Stub.env_reset Stub.env_step 2.
Proof. split; intros; repeat split; reflexivity. Defined.




Lemma collector_without_steps_witness :
  Stub.collect 0 0.5 Stub.world = (inl StackEmpty, Stub.world).
Proof.
  refine (proj1 (@collector_without_steps_raises
                   float float_scalar Stub.Obs bool nat nat unit unit
                   Stub.cart_position Stub.env_num Stub.env_reset
                   Stub.env_step Stub.forward Stub.sample Stub.log_prob
                   0 0.5 Cpu Stub.world _)).
  discriminate.
Defined.

(** Episode 1 of the stub's batch at step 0. *)
Lemma batch_is_aligned_witness :
  entry (data (t_all_log_probs Stub.batch)) 1 0 =
  Some (Stub.log_prob (Stub.forward tt [0; 0; 0; 0]) true).
Proof.
  assert (H : Stub.collect 4 0.5 Stub.world =
              (inr (Stub.batch, [0.5; 0]), Stub.world_second))
    by reflexivity.
  unfold Stub.collect in H.
  apply batch_is_aligned in H. destruct H as [_ H].
  apply (H 1%nat 0%nat [0; 0; 0; 0] true); reflexivity.
Defined.

(** The exact stub with four steps allowed. *)
Lemma episode_rewards_are_the_totals_witness :
  match fst (ExactStub.collect 4 (1 # 2) ExactStub.world) with
  | inr (_, er) =>
      exists c : Rollout (A:=Q) ExactStub.Obs bool,
        all_true (all_dones c) = true /\ Forall2 Qeq er (all_rewards c)
  | inl _ => False
  end.
Proof.
  destruct (ExactStub.collect 4 (1 # 2) ExactStub.world)
    as [[e|[traj er]] w'] eqn:H; cbn [fst].
  - vm_compute in H. discriminate.
  - pose proof H as Hrun. unfold ExactStub.collect in H.
    apply episode_rewards_are_the_totals in H.
    destruct H as (_ & c & Hloop & Her).
    exists c. split; [|exact Her].
    vm_compute in Hloop. injection Hloop as <- _. reflexivity.
Defined.
End MoreStubRuns.

(** ** The training loop against a well-behaved environment *)

Section TrainFacts.
Context {A : Type} {SA : Scalar A} {SQ : Sqrt A}.
Variables Obs Action : Type.
Variables EnvState Rng Params OptState Grad : Type.
Variable cart_position : Obs -> A.
Variable env_num : EnvState -> nat.
Variable env_reset : EnvState -> list Obs * EnvState.
Variable env_step : list Action -> EnvState -> StepResult (A:=A) Obs * EnvState.
Variable forward : Params -> Obs -> list A.
Variable sample : list A -> Rng -> Action * Rng.
Variable log_prob : list A -> Action -> A.
Variable gather : list A -> Action -> A.
Variables exp log : A -> A.
Variable backward : (Params -> A) -> Params -> Grad.
Variable optim_step : OptState -> Params -> Grad -> OptState * Params.

Local Abbreviation W := (World EnvState Rng Params OptState).
Local Abbreviation training_step :=
  (train_step cart_position env_num env_reset env_step forward sample
     log_prob gather exp log backward optim_step).
Local Abbreviation training_loop :=
  (train_loop cart_position env_num env_reset env_step forward sample
     log_prob gather exp log backward optim_step).
Local Abbreviation training :=
  (train cart_position env_num env_reset env_step forward sample
     log_prob gather exp log backward optim_step).

Lemma train_step_total n device (w : W) :
  env_shape env_reset env_step n ->
  (forall e, env_num e = n) ->
  1 <= n ->
  exists avg w', training_step device w = (inr avg, w').
Proof.
  intros He Hnum Hn. unfold train_step.
  assert (Hc : exists traj er w1,
             collect_trajectory_vectorized cart_position env_num env_reset
               env_step forward sample log_prob max_steps (decimal 99 2)
               device w = (inr (traj, er), w1) /\
             dim0 (t_all_states traj) = n /\
             dim0 (t_all_log_probs traj) = n /\
             dim0 (t_all_actions traj) = n /\
             length (t_normalized_rewards traj) = n /\
             length er = n).
  { apply collect_total; auto. discriminate. }
  destruct Hc as (traj & er & w1 & Hc & Hd & _ & _ & _ & Hl).
  unfold bind at 1. rewrite Hc.
  assert (Hu : exists loss w2,
             grpo_update forward gather exp log backward optim_step
               traj 20 (decimal 2 1) w1 = (inr loss, w2)).
  { apply grpo_update_returns. lia. }
  destruct Hu as (loss & w2 & Hu).
  unfold bind. rewrite Hu.
  destruct er as [|x er]; [simpl in Hl; lia|].
  eexists _, _. reflexivity.
Qed.

Lemma train_loop_total n device fuel : forall entered rl (w : W),
  env_shape env_reset env_step n ->
  (forall e, env_num e = n) ->
  1 <= n ->
  forall e, exit (fst (training_loop device fuel entered rl w)) <> Raised e.
Proof.
  induction fuel as [|fuel IH]; intros entered rl w He Hnum Hn e;
    cbn [train_loop].
  - discriminate.
  - destruct (train_step_total device w He Hnum Hn) as (avg & w1 & H).
    rewrite H.
    destruct (gtb avg (of_Z (max_steps - 5))); [discriminate|].
    now apply IH.
Qed.

End TrainFacts.

Section TrainStub.

End TrainStub.
